(** * Values carousel (continuous ring rotation) -- src/js/main.js, ValuesCarousel

    A shallow embedding of the hover-driven card animation and of the part
    of the browser it talks to (animation-frame callbacks, the resize timer,
    the viewport and the layout boxes of the cards).

    JavaScript numbers are idealised as exact rationals ([Q]): rounding,
    NaN and the infinities of IEEE doubles are outside the model.  Equality
    of numbers is therefore [Qeq] ([==]) in the statements. *)

From Stdlib Require Import ZArith QArith Qround Qabs List Bool Lia Lqa Permutation.
From Stdlib Require String Ascii Reals Lra.
Import ListNotations.

Local Open Scope Z_scope.
Local Open Scope Q_scope.

(** ** JavaScript primitives used by the component *)

Module JS.

(** [Math.floor(x)]; the result is integer valued, kept as a [Z]. *)
Definition floor (x : Q) : Z := Qfloor x.

(** Rounding towards zero, as the remainder operator does on its quotient. *)
Definition trunc (x : Q) : Z :=
  if Qlt_le_dec x 0 then Qceiling x else Qfloor x.

(** [x % n] on numbers: [x - n * trunc(x / n)], the sign follows [x]. *)
Definition rem (x n : Q) : Q := x - n * inject_Z (trunc (x / n)).

(** [a % b] when both operands are integer valued. *)
Definition remZ (a b : Z) : Z := Z.rem a b.

(** [arr[i]]: [undefined] ([None]) outside the array, also for [i < 0]. *)
Definition get {A : Type} (arr : list A) (i : Z) : option A :=
  if (i <? 0)%Z then None else nth_error arr (Z.to_nat i).

(** [arr.indexOf(v)] on an array of integers, searching from index [i]. *)
Fixpoint indexOfFrom (arr : list Z) (v : Z) (i : Z) : Z :=
  match arr with
  | [] => (-1)%Z
  | a :: rest => if (a =? v)%Z then i else indexOfFrom rest v (i + 1)%Z
  end.

Definition indexOf (arr : list Z) (v : Z) : Z := indexOfFrom arr v 0%Z.

End JS.

(** ** Configuration *)

Module CONFIG.
Definition speed : Q := 45 # 100.
Definition minWidth : Z := 768%Z.
Definition ringOrder : list Z := [0; 1; 3; 5; 4; 2]%Z.
End CONFIG.

(** ** Data *)

(** A point [{x, y}]. *)
Record position : Type := mkPosition { posX : Q; posY : Q }.

(** [style.transform] of a card: the empty string, or the string
    [translate(<dx>px, <dy>px)] written by [applyPositions]. *)
Inductive transform : Type :=
| NoTransform
| Translate (dx dy : Q).

(** A card element: where layout puts its top-left corner when it carries
    no transform, and its inline transform. *)
Record card : Type := mkCard { natural : position; cardTransform : transform }.

Definition setTransform (c : card) (t : transform) : card :=
  mkCard (natural c) t.

(** [c.getBoundingClientRect()], top-left corner. *)
Definition boundingRect (c : card) : position :=
  match cardTransform c with
  | NoTransform => natural c
  | Translate dx dy => mkPosition (posX (natural c) + dx) (posY (natural c) + dy)
  end.

(** ** Helpers *)

Definition lerp (a b t : Q) : Q := a + (b - a) * t.

(** ** The arithmetic of [applyPositions] for one card *)

Definition effective (len ringPos : Z) (progress : Q) : Q :=
  JS.rem (inject_Z ringPos + progress) (inject_Z len).

Definition posA (len : Z) (eff : Q) : Z := JS.remZ (JS.floor eff) len.

Definition posB (len pA : Z) : Z := JS.remZ (pA + 1) len.

Definition weight (eff : Q) : Q := eff - inject_Z (JS.floor eff).

(** Outcome of one card's callback in [applyPositions]. *)
Inductive cardResult : Type :=
| Skipped                 (* [ringPos === -1]: early return *)
| Raised                  (* property read on [undefined]: TypeError *)
| Assigned (dx dy : Q).   (* the card's transform is set to this offset *)

Definition cardOffset (ring : list Z) (base : list position) (progress : Q)
    (cardIndex : Z) : cardResult :=
  let len := Z.of_nat (length ring) in
  let ringPos := JS.indexOf ring cardIndex in
  if (ringPos =? -1)%Z then Skipped
  else
    let eff := effective len ringPos progress in
    let pA := posA len eff in
    let pB := posB len pA in
    let t := weight eff in
    match JS.get ring pA, JS.get ring pB with
    | Some slotA, Some slotB =>
        match JS.get base slotA, JS.get base slotB, JS.get base cardIndex with
        | Some a, Some b, Some own =>
            Assigned (lerp (posX a) (posX b) t - posX own)
                     (lerp (posY a) (posY b) t - posY own)
        | _, _, _ => Raised
        end
    | _, _ => Raised
    end.

(** ** Results of code that may raise *)

(** A function either returns, or raises with the mutations it made so far
    still in place. *)
Inductive outcome (A : Type) : Type :=
| Done (a : A)
| Thrown (a : A).

Arguments Done {A} a.
Arguments Thrown {A} a.

Definition stateOf {A : Type} (o : outcome A) : A :=
  match o with Done a => a | Thrown a => a end.

(** Sequencing: nothing after a raise is run. *)
Definition bind {A : Type} (o : outcome A) (k : A -> outcome A) : outcome A :=
  match o with
  | Done a => k a
  | Thrown a => Thrown a
  end.

Definition omap {A B : Type} (f : A -> B) (o : outcome A) : outcome B :=
  match o with Done a => Done (f a) | Thrown a => Thrown (f a) end.

(** [cards.forEach((card, cardIndex) => ...)] of [applyPositions], from
    index [i] on: stops at the first card whose callback raises. *)
Fixpoint applyFrom (ring : list Z) (base : list position) (progress : Q)
    (i : Z) (cs : list card) : outcome (list card) :=
  match cs with
  | [] => Done []
  | c :: rest =>
      match cardOffset ring base progress i with
      | Raised => Thrown (c :: rest)
      | Skipped => omap (cons c) (applyFrom ring base progress (i + 1)%Z rest)
      | Assigned dx dy =>
          omap (cons (setTransform c (Translate dx dy)))
               (applyFrom ring base progress (i + 1)%Z rest)
      end
  end.

(** ** Component and browser state *)

Record state : Type := mkState {
  (* module variables *)
  grid : option position;        (* the container, with its bounding box *)
  cards : list card;
  basePositions : list position;
  progress : Q;
  animationId : option Z;
  lastTimestamp : option Q;
  positionsCaptured : bool;
  (* browser *)
  listening : bool;              (* the three listeners of [init] are registered *)
  timerPending : bool;           (* the debounce timeout is armed *)
  innerWidth : Z;
  reducedMotion : bool;
  frameCallbacks : list Z;       (* handles of the pending frame callbacks *)
  nextHandle : Z
}.

Definition setGrid (v : option position) (s : state) : state :=
  mkState v (cards s) (basePositions s) (progress s) (animationId s)
    (lastTimestamp s) (positionsCaptured s) (listening s) (timerPending s)
    (innerWidth s) (reducedMotion s) (frameCallbacks s) (nextHandle s).

Definition setCards (v : list card) (s : state) : state :=
  mkState (grid s) v (basePositions s) (progress s) (animationId s)
    (lastTimestamp s) (positionsCaptured s) (listening s) (timerPending s)
    (innerWidth s) (reducedMotion s) (frameCallbacks s) (nextHandle s).

Definition setBasePositions (v : list position) (s : state) : state :=
  mkState (grid s) (cards s) v (progress s) (animationId s)
    (lastTimestamp s) (positionsCaptured s) (listening s) (timerPending s)
    (innerWidth s) (reducedMotion s) (frameCallbacks s) (nextHandle s).

Definition setProgress (v : Q) (s : state) : state :=
  mkState (grid s) (cards s) (basePositions s) v (animationId s)
    (lastTimestamp s) (positionsCaptured s) (listening s) (timerPending s)
    (innerWidth s) (reducedMotion s) (frameCallbacks s) (nextHandle s).

Definition setAnimationId (v : option Z) (s : state) : state :=
  mkState (grid s) (cards s) (basePositions s) (progress s) v
    (lastTimestamp s) (positionsCaptured s) (listening s) (timerPending s)
    (innerWidth s) (reducedMotion s) (frameCallbacks s) (nextHandle s).

Definition setLastTimestamp (v : option Q) (s : state) : state :=
  mkState (grid s) (cards s) (basePositions s) (progress s) (animationId s)
    v (positionsCaptured s) (listening s) (timerPending s)
    (innerWidth s) (reducedMotion s) (frameCallbacks s) (nextHandle s).

Definition setPositionsCaptured (v : bool) (s : state) : state :=
  mkState (grid s) (cards s) (basePositions s) (progress s) (animationId s)
    (lastTimestamp s) v (listening s) (timerPending s)
    (innerWidth s) (reducedMotion s) (frameCallbacks s) (nextHandle s).

Definition setListening (v : bool) (s : state) : state :=
  mkState (grid s) (cards s) (basePositions s) (progress s) (animationId s)
    (lastTimestamp s) (positionsCaptured s) v (timerPending s)
    (innerWidth s) (reducedMotion s) (frameCallbacks s) (nextHandle s).

Definition setTimerPending (v : bool) (s : state) : state :=
  mkState (grid s) (cards s) (basePositions s) (progress s) (animationId s)
    (lastTimestamp s) (positionsCaptured s) (listening s) v
    (innerWidth s) (reducedMotion s) (frameCallbacks s) (nextHandle s).

Definition setViewport (w : Z) (rm : bool) (s : state) : state :=
  mkState (grid s) (cards s) (basePositions s) (progress s) (animationId s)
    (lastTimestamp s) (positionsCaptured s) (listening s) (timerPending s)
    w rm (frameCallbacks s) (nextHandle s).

Definition setFrames (fc : list Z) (nh : Z) (s : state) : state :=
  mkState (grid s) (cards s) (basePositions s) (progress s) (animationId s)
    (lastTimestamp s) (positionsCaptured s) (listening s) (timerPending s)
    (innerWidth s) (reducedMotion s) fc nh.

(** The module's variables before [init], in a browser with the given
    viewport width and motion preference. *)
Definition initial (w : Z) (rm : bool) : state :=
  mkState None [] [] 0 None None false false false w rm [] 1%Z.

(** ** Browser services *)

(** [requestAnimationFrame(animate)]: a fresh handle, queued last. *)
Definition requestAnimationFrame (s : state) : Z * state :=
  (nextHandle s,
   setFrames (frameCallbacks s ++ [nextHandle s]) (nextHandle s + 1)%Z s).

(** [cancelAnimationFrame(h)]. *)
Definition cancelAnimationFrame (h : Z) (s : state) : state :=
  setFrames (filter (fun k => negb (k =? h)%Z) (frameCallbacks s))
    (nextHandle s) s.

(** [window.matchMedia('(prefers-reduced-motion: reduce)').matches]. *)
Definition prefersReducedMotion (s : state) : bool := reducedMotion s.

(** ** Position capture *)

(** [cards.forEach((c, i) => { c.style.transform = savedTransforms[i]; })];
    an [undefined] entry would read back as the empty string. *)
Fixpoint restoreFrom (saved : list transform) (i : nat) (cs : list card)
    : list card :=
  match cs with
  | [] => []
  | c :: rest =>
      setTransform c (nth i saved NoTransform) :: restoreFrom saved (S i) rest
  end.

(** [cards.forEach(c => { c.style.transform = ''; })]. *)
Definition clearTransforms (cs : list card) : list card :=
  map (fun c => setTransform c NoTransform) cs.

(** [cards.map(c => ...)] of [captureBasePositions]. *)
Definition measure (gridRect : position) (cs : list card) : list position :=
  map (fun c =>
         let r := boundingRect c in
         mkPosition (posX r - posX gridRect) (posY r - posY gridRect))
      cs.

Definition captureBasePositions (s : state) : outcome state :=
  let savedTransforms := map cardTransform (cards s) in
  let s1 := setCards (clearTransforms (cards s)) s in
  match grid s1 with
  | None => Thrown s1    (* [grid.offsetHeight] on [null] *)
  | Some gridRect =>
      let s2 := setBasePositions (measure gridRect (cards s1)) s1 in
      let s3 := setCards (restoreFrom savedTransforms 0 (cards s2)) s2 in
      Done (setPositionsCaptured true s3)
  end.

(** ** Animation loop *)

Definition applyPositions (s : state) : outcome state :=
  omap (fun cs => setCards cs s)
       (applyFrom CONFIG.ringOrder (basePositions s) (progress s) 0%Z (cards s)).

(** [animationId = requestAnimationFrame(animate)]. *)
Definition scheduleAnimate (s : state) : state :=
  let (h, s') := requestAnimationFrame s in setAnimationId (Some h) s'.

Definition animate (timestamp : Q) (s : state) : outcome state :=
  let s1 :=
    match lastTimestamp s with
    | None => setLastTimestamp (Some timestamp) s
    | Some _ => s
    end in
  let last := match lastTimestamp s1 with Some l => l | None => timestamp end in
  let delta := (timestamp - last) / 1000 in
  let s2 := setLastTimestamp (Some timestamp) s1 in
  let s3 := setProgress (progress s2 + CONFIG.speed * delta) s2 in
  bind (applyPositions s3) (fun s4 => Done (scheduleAnimate s4)).

(** ** Event handlers *)

Definition handleMouseEnter (s : state) : outcome state :=
  if (innerWidth s <? CONFIG.minWidth)%Z then Done s
  else if prefersReducedMotion s then Done s
  else
    bind (if positionsCaptured s then Done s else captureBasePositions s)
      (fun s1 => Done (scheduleAnimate (setLastTimestamp None s1))).

(** [if (animationId !== null) { cancelAnimationFrame(animationId);
    animationId = null; }], as written in both [handleMouseLeave] and the
    resize callback. *)
Definition stopLoop (s : state) : state :=
  match animationId s with
  | Some h => setAnimationId None (cancelAnimationFrame h s)
  | None => s
  end.

Definition handleMouseLeave (s : state) : outcome state := Done (stopLoop s).

(** [handleResize]: re-arm the debounce timer. *)
Definition handleResize (s : state) : outcome state :=
  Done (setTimerPending true s).

(** The function passed to [setTimeout] by [handleResize]. *)
Definition resizeWork (s : state) : outcome state :=
  if negb (positionsCaptured s) then Done s
  else
    let wasAnimating :=
      match animationId s with Some _ => true | None => false end in
    let s1 := stopLoop s in
    if (innerWidth s1 <? CONFIG.minWidth)%Z then
      let s2 := setCards (clearTransforms (cards s1)) s1 in
      Done (setProgress 0 (setPositionsCaptured false s2))
    else
      bind (captureBasePositions s1) (fun s2 =>
      bind (applyPositions s2) (fun s3 =>
        if wasAnimating
        then Done (scheduleAnimate (setLastTimestamp None s3))
        else Done s3)).

(** ** Init *)

(** [doc] is what the two selector queries find: the container's box and
    its card elements, or nothing. *)
Definition init (doc : option (position * list card)) (s : state)
    : outcome state :=
  match doc with
  | None => Done (setGrid None s)
  | Some (g, cs) =>
      let s1 := setCards cs (setGrid (Some g) s) in
      if negb (length cs =? 6)%nat then Done s1
      else if prefersReducedMotion s1 then Done s1
      else Done (setListening true s1)
  end.

(** ** The event loop *)

Inductive event : Type :=
| MouseEnter
| MouseLeave
| Resize                         (* a [resize] event of the window *)
| ResizeTimeout                  (* the debounce delay has elapsed *)
| Frame (timestamp : Q)          (* the browser runs the frame callbacks *)
| Relayout (w : Z) (rm : bool) (g : position) (boxes : list position).
                                 (* viewport, preference and layout change *)

(** New layout boxes for the container and the cards. *)
Fixpoint moveCards (boxes : list position) (cs : list card) : list card :=
  match cs, boxes with
  | c :: rest, b :: boxes' => mkCard b (cardTransform c) :: moveCards boxes' rest
  | _, _ => cs
  end.

Definition relayout (w : Z) (rm : bool) (g : position) (boxes : list position)
    (s : state) : state :=
  let s1 := setViewport w rm s in
  let s2 := match grid s1 with Some _ => setGrid (Some g) s1 | None => s1 end in
  setCards (moveCards boxes (cards s2)) s2.

(** Run every callback that was pending when the frame began; callbacks
    requested meanwhile wait for the next frame.  An exception in one
    callback is reported and does not stop the others. *)
Definition runFrame (timestamp : Q) (s : state) : state :=
  fold_left (fun st _ => stateOf (animate timestamp st))
            (frameCallbacks s)
            (setFrames [] (nextHandle s) s).

Definition step (s : state) (e : event) : state :=
  match e with
  | MouseEnter => if listening s then stateOf (handleMouseEnter s) else s
  | MouseLeave => if listening s then stateOf (handleMouseLeave s) else s
  | Resize => if listening s then stateOf (handleResize s) else s
  | ResizeTimeout =>
      if timerPending s then stateOf (resizeWork (setTimerPending false s))
      else s
  | Frame timestamp => runFrame timestamp s
  | Relayout w rm g boxes => relayout w rm g boxes s
  end.

Definition run (s : state) (es : list event) : state := fold_left step es s.

(** ** Reading the ring cyclically

    Used to state the properties below: the slot at a ring position taken
    modulo the ring length, and the entry of an array of positions. *)

Definition ringSlot (k : Z) : Z :=
  nth (Z.to_nat (k mod Z.of_nat (length CONFIG.ringOrder))) CONFIG.ringOrder 0%Z.

Definition baseAt (base : list position) (j : Z) : position :=
  nth (Z.to_nat j) base (mkPosition 0 0).

(** The point at weight [t] on the edge from node [n] to node [n + 1] of a
    path with nodes [a]. *)
Definition along (a : Z -> Q) (n : Z) (t : Q) : Q :=
  lerp (a n) (a (n + 1)%Z) t.

(** Total length, axis by axis, of the six edges of the ring through the
    given base positions. *)
Definition ringSpan (base : list position) : Q :=
  fold_right Qplus 0
    (map (fun j : Z =>
            Qabs (posX (baseAt base (ringSlot (j + 1))) -
                  posX (baseAt base (ringSlot j))) +
            Qabs (posY (baseAt base (ringSlot (j + 1))) -
                  posY (baseAt base (ringSlot j))))
         [0; 1; 2; 3; 4; 5]%Z).

(** The transform of card [i] once [applyPositions] has run at progress [p]. *)
Definition renderedAt (s : state) (p : Q) (i : nat) : option transform :=
  option_map cardTransform
    (nth_error (cards (stateOf (applyPositions (setProgress p s)))) i).

(** What [applyFrom] writes when no callback raises. *)
Fixpoint placeFrom (ring : list Z) (base : list position) (progress : Q)
    (i : Z) (cs : list card) : list card :=
  match cs with
  | [] => []
  | c :: rest =>
      match cardOffset ring base progress i with
      | Assigned dx dy => setTransform c (Translate dx dy)
      | _ => c
      end :: placeFrom ring base progress (i + 1)%Z rest
  end.

(** The natural boxes of the cards relative to the container: what
    [measure] reads once the transforms are cleared (lemma [measure_clear]). *)
Definition naturalOffsets (g : position) (cs : list card) : list position :=
  map (fun c => mkPosition (posX (natural c) - posX g)
                           (posY (natural c) - posY g)) cs.

(** ** States of the loop *)

(** The loop is running: one frame callback is pending and [animationId]
    holds its handle. *)
Definition loopRunning (s : state) : Prop :=
  exists h : Z, animationId s = Some h /\ frameCallbacks s = [h].

(** No frame callback is pending but the one [animationId] records. *)
Definition singleLoop (s : state) : Prop :=
  frameCallbacks s = [] \/ loopRunning s.

(** The page after a successful [init]: six cards in a container, and six
    base positions from the first capture on. *)
Definition activated (s : state) : Prop :=
  length (cards s) = 6%nat /\ grid s <> None /\ 0 <= progress s /\
  (length (basePositions s) = 6%nat \/
   (positionsCaptured s = false /\ frameCallbacks s = [])).

(** Hover-enter arrives only while no loop is recorded, as when enter and
    leave alternate. *)
Definition orderly (s : state) (e : event) : Prop :=
  match e with
  | MouseEnter => animationId s = None
  | _ => True
  end.

Fixpoint orderlyRun (s : state) (es : list event) : Prop :=
  match es with
  | [] => True
  | e :: rest => orderly s e /\ orderlyRun (step s e) rest
  end.

(** Frame timestamps never run backwards. *)
Definition timely (s : state) (e : event) : Prop :=
  match e, lastTimestamp s with
  | Frame timestamp, Some l => l <= timestamp
  | _, _ => True
  end.

Fixpoint timelyRun (s : state) (es : list event) : Prop :=
  match es with
  | [] => True
  | e :: rest => timely s e /\ timelyRun (step s e) rest
  end.

(** Events that are no hover-enter meeting both guards of
    [handleMouseEnter], and no resize. *)
Definition idleEvent (s : state) (e : event) : Prop :=
  match e with
  | Frame _ => True
  | MouseLeave => True
  | MouseEnter =>
      (innerWidth s <? CONFIG.minWidth)%Z = true \/ reducedMotion s = true
  | _ => False
  end.

(** Nothing registered and nothing scheduled. *)
Definition inert (s : state) : Prop :=
  listening s = false /\ timerPending s = false /\
  frameCallbacks s = [] /\ animationId s = None.

(** The animation state proper. *)
Definition animationState (s : state)
    : list position * Q * option Z * option Q * bool :=
  (basePositions s, progress s, animationId s, lastTimestamp s,
   positionsCaptured s).

(** Timestamps in non-decreasing order, starting from [l]. *)
Fixpoint ascending (l : Q) (ts : list Q) : Prop :=
  match ts with
  | [] => True
  | t :: rest => l <= t /\ ascending t rest
  end.

(** No frame is pending and none is recorded. *)
Definition calm (s : state) : Prop :=
  frameCallbacks s = [] /\ animationId s = None.

(** One of the two guards of [handleMouseEnter] stops a hover-enter. *)
Definition blocked (s : state) : Prop :=
  (innerWidth s <? CONFIG.minWidth)%Z = true \/ reducedMotion s = true.

(** Events that leave the viewport narrow or the motion preference set. *)
Definition keepsBlocked (e : event) : Prop :=
  match e with
  | Relayout w rm _ _ => (w <? CONFIG.minWidth)%Z = true \/ rm = true
  | _ => True
  end.

(** Where a card is drawn, relative to the container. *)
Definition shownAt (g : position) (c : card) : position :=
  mkPosition (posX (boundingRect c) - posX g) (posY (boundingRect c) - posY g).

(** ** A sample page

    Six cards in two columns and three rows, the container at (40, 60). *)

Definition demoCards : list card :=
  map (fun b => mkCard b NoTransform)
    [mkPosition 40 60; mkPosition 240 60;
     mkPosition 40 160; mkPosition 240 160;
     mkPosition 40 260; mkPosition 240 260].

Definition demoDoc : option (position * list card) :=
  Some (mkPosition 40 60, demoCards).

Definition demoStart : state := stateOf (init demoDoc (initial 1024 false)).

(** Hovered for one second: positions captured, the loop running. *)
Definition demoRunning : state :=
  run demoStart [MouseEnter; Frame 0; Frame 1000].

(** The same page after the window was narrowed to 600 pixels, the cards
    now stacked in one column. *)
Definition demoNarrow : state :=
  run demoRunning
    [Relayout 600 false (mkPosition 20 60)
       [mkPosition 20 60; mkPosition 20 160; mkPosition 20 260;
        mkPosition 20 360; mkPosition 20 460; mkPosition 20 560]].

(** * The other scripts of the page *)

(** ** JavaScript strings

    A string is its sequence of UTF-16 code units. *)

Module JSString.
Import String Ascii.

Definition t : Type := list N.

(** A literal of the source (ASCII only). *)
Definition lit (s : string) : t := map N_of_ascii (list_ascii_of_string s).

Fixpoint eqb (a b : t) : bool :=
  match a, b with
  | [], [] => true
  | x :: a', y :: b' => (x =? y)%N && eqb a' b'
  | _, _ => false
  end.

(** White space and line terminators, the code units [trim] strips. *)
Definition isWhiteSpace (c : N) : bool :=
  existsb (N.eqb c)
    [9; 10; 11; 12; 13; 32; 160; 5760; 8232; 8233; 8239; 8287; 12288; 65279]%N
  || ((8192 <=? c) && (c <=? 8202))%N.

Fixpoint trimStart (s : t) : t :=
  match s with
  | [] => []
  | c :: rest => if isWhiteSpace c then trimStart rest else s
  end.

Definition trimEnd (s : t) : t := rev (trimStart (rev s)).

(** [s.trim()]. *)
Definition trim (s : t) : t := trimEnd (trimStart s).

Fixpoint startsWith (s pre : t) : bool :=
  match pre, s with
  | [], _ => true
  | p :: pre', c :: s' => (p =? c)%N && startsWith s' pre'
  | _ :: _, [] => false
  end.

(** [s.includes(needle)]. *)
Fixpoint includes (s needle : t) : bool :=
  startsWith s needle ||
  match s with
  | [] => false
  | _ :: rest => includes rest needle
  end.

(** [s.split(sep)] for a separator of one code unit. *)
Fixpoint split (sep : N) (s : t) : list t :=
  match s with
  | [] => [[]]
  | c :: rest =>
      if (c =? sep)%N then [] :: split sep rest
      else match split sep rest with
           | h :: tl => (c :: h) :: tl
           | [] => [[c]]
           end
  end.

(** A string in a condition: empty is falsy. *)
Definition truthy (s : t) : bool :=
  match s with [] => false | _ :: _ => true end.

End JSString.

(** The string literals of the scripts. *)
Module Lit.
Import String.
Definition noopener : JSString.t := JSString.lit "noopener".
Definition space_noopener_noreferrer : JSString.t :=
  JSString.lit " noopener noreferrer".
Definition noopener_noreferrer : JSString.t := JSString.lit "noopener noreferrer".
Definition es : JSString.t := JSString.lit "es".
End Lit.

(** ** Portfolio (src/js/main.js, src/unnamed/part_000) *)

Module Portfolio.

(** *** External links ([initExternalLinks]) *)

(** The [rel] attribute of each anchor that [a[target="_blank"]] selects:
    absent ([None]) or a string. *)
Definition link : Type := option JSString.t.

(** [link.getAttribute('rel') || '']. *)
Definition relOrEmpty (l : link) : JSString.t :=
  match l with
  | Some r => if JSString.truthy r then r else []
  | None => []
  end.

Definition secureLink (l : link) : link :=
  let rel := relOrEmpty l in
  if negb (JSString.includes rel Lit.noopener) then
    Some (JSString.trim (rel ++ Lit.space_noopener_noreferrer))
  else l.

Definition initExternalLinks (links : list link) : list link :=
  map secureLink links.

(** *** Process section ([initProcessSection], src/unnamed/part_000) *)

(** A marker: [parseInt(marker.dataset.step, 10)] ([None] for NaN) and its
    two state classes. *)
Record marker : Type := mkMarker {
  markerStep : option Z;
  markerActive : bool;       (* class [process__marker--active] *)
  markerCompleted : bool     (* class [process__marker--completed] *)
}.

Record stepCard : Type := mkStepCard {
  cardStep : option Z;
  stepActive : bool          (* class [process-step--active] *)
}.

(** The percentage written to the width of the progress bar; [None] when
    the quotient is not a finite number. *)
Record section : Type := mkSection {
  steps : list stepCard;
  markers : list marker;
  fillWidth : option Q
}.

(** [a === b] and [a < b] on numbers that may be NaN. *)
Definition numEq (a b : option Z) : bool :=
  match a, b with Some x, Some y => (x =? y)%Z | _, _ => false end.

Definition numLt (a b : option Z) : bool :=
  match a, b with Some x, Some y => (x <? y)%Z | _, _ => false end.

Definition progressPercentage (stepNumber : option Z) (totalSteps : nat)
    : option Q :=
  match stepNumber with
  | None => None
  | Some n =>
      if (Z.of_nat totalSteps - 1 =? 0)%Z then None
      else Some ((inject_Z (n - 1) / inject_Z (Z.of_nat totalSteps - 1)) * 100)
  end.

Definition setActiveStep (stepNumber : option Z) (p : section) : section :=
  let totalSteps := length (steps p) in
  mkSection
    (map (fun c => mkStepCard (cardStep c) (numEq (cardStep c) stepNumber))
         (steps p))
    (map (fun m =>
            if numEq (markerStep m) stepNumber
            then mkMarker (markerStep m) true false
            else if numLt (markerStep m) stepNumber
            then mkMarker (markerStep m) false true
            else mkMarker (markerStep m) false false)
         (markers p))
    (progressPercentage stepNumber totalSteps).

(** The section as [initProcessSection] finds it: [None] when
    [getElementById('process-progress-fill')] finds nothing.  The result
    tells whether the listeners were registered. *)
Definition initProcessSection (p : section) (hasFill : bool) : section * bool :=
  if (Nat.eqb (length (steps p)) 0 || Nat.eqb (length (markers p)) 0
      || negb hasFill)%bool
  then (p, false)
  else (setActiveStep (Some 1%Z) p, true).

End Portfolio.

(** ** I18n (src/unnamed/part_000) *)

Module I18n.







(** [getNestedValue(obj, path)].  [undefined] is [None]; what is truthy and
    what [current[key]] yields is the engine's business and is taken as
    given. *)
Definition getNestedValue {value : Type} (truthy : value -> bool)
    (get : value -> JSString.t -> option value)
    (obj : option value) (path : JSString.t) : option value :=
  fold_left
    (fun current key =>
       match current with
       | Some v => if truthy v then get v key else None
       | None => None
       end)
    (JSString.split 46 path) obj.

(** [t(key, fallback)]. *)
Definition t {value : Type} (truthy : value -> bool)
    (get : value -> JSString.t -> option value)
    (translations : value) (key : JSString.t) (fallback : value) : value :=
  match getNestedValue truthy get (Some translations) key with
  | Some v => v
  | None => fallback
  end.

End I18n.

(** ** The circular carousel (src/js/values-carousel.js)

    Numbers are real numbers here, for the sake of [Math.cos] and
    [Math.sin]. *)

Module FerrisWheel.
Import Reals.
Local Open Scope R_scope.

Definition radius : R := 320.
Definition cardCount : R := 6.

(** [translate(calc(-50% + <x>px), calc(-50% + <y>px))]. *)
Inductive transform : Type :=
| NoTransform
| FromCentre (x y : R).

Definition step : R := (2 * PI) / cardCount.

Definition cardAngle (angle : R) (i : nat) : R := angle + INR i * step.

Definition cardX (angle : R) (i : nat) : R :=
  radius * cos (cardAngle angle i - PI / 2).

Definition cardY (angle : R) (i : nat) : R :=
  radius * sin (cardAngle angle i - PI / 2).

(** [cards.forEach((card, i) => ...)] of [positionCards], from index [i]. *)
Fixpoint positionFrom (angle : R) (i : nat) (cards : list transform)
    : list transform :=
  match cards with
  | [] => []
  | _ :: rest =>
      FromCentre (cardX angle i) (cardY angle i) :: positionFrom angle (S i) rest
  end.

Definition positionCards (angle : R) (cards : list transform) : list transform :=
  positionFrom angle 0 cards.

End FerrisWheel.

(** ** More states of the sample page *)

(** Just hovered: the first frame is requested and has not run. *)
Definition demoHovered : state := run demoStart [MouseEnter].

(** Loaded in a window 600 pixels wide, never hovered. *)
Definition demoIdleNarrow : state :=
  run demoStart
    [Relayout 600 false (mkPosition 20 60)
       [mkPosition 20 60; mkPosition 20 160; mkPosition 20 260;
        mkPosition 20 360; mkPosition 20 460; mkPosition 20 560]].

(** Hovered twice with no hover-leave in between. *)
Definition demoLeaked : state := run demoStart [MouseEnter; MouseEnter].

(** ** Arithmetic lemmas *)

Lemma trunc_nonneg (x : Q) : 0 <= x -> JS.trunc x = Qfloor x.
Proof.
  intros Hx. unfold JS.trunc.
  destruct (Qlt_le_dec x 0) as [Hn | _]; [ | reflexivity].
  exfalso. apply (Qlt_irrefl 0). eapply Qle_lt_trans; eauto.
Qed.

Lemma floor_bounds (x : Q) :
  inject_Z (Qfloor x) <= x /\ x < inject_Z (Qfloor x) + 1.
Proof.
  split; [apply Qfloor_le | ].
  pose proof (Qlt_floor x) as H. rewrite inject_Z_plus in H. exact H.
Qed.

(** For a non-negative dividend and a positive modulus the remainder lies in
    [[0, n)]. *)
Lemma rem_range (x n : Q) : 0 <= x -> 0 < n -> 0 <= JS.rem x n /\ JS.rem x n < n.
Proof.
  intros Hx Hn. unfold JS.rem.
  assert (Hq : 0 <= x / n).
  { apply Qle_shift_div_l; [exact Hn | lra]. }
  rewrite (trunc_nonneg _ Hq).
  destruct (floor_bounds (x / n)) as [Hlo Hhi].
  set (f := inject_Z (Qfloor (x / n))) in *.
  assert (Hxn : x == (x / n) * n) by (field; lra).
  assert (H1 : f * n <= (x / n) * n) by (apply Qmult_le_compat_r; lra).
  assert (H2 : (x / n) * n < (f + 1) * n) by (apply Qmult_lt_compat_r; lra).
  split; lra.
Qed.

Lemma inject_Z_pos (n : Z) : (0 < n)%Z -> 0 < inject_Z n.
Proof. intros H. change 0 with (inject_Z 0). now rewrite <- Zlt_Qlt. Qed.

Lemma inject_Z_nonneg (n : Z) : (0 <= n)%Z -> 0 <= inject_Z n.
Proof. intros H. change 0 with (inject_Z 0). now rewrite <- Zle_Qle. Qed.

Lemma effective_range (len ringPos : Z) (p : Q) :
  (0 < len)%Z -> (0 <= ringPos)%Z -> 0 <= p ->
  0 <= effective len ringPos p /\ effective len ringPos p < inject_Z len.
Proof.
  intros Hlen Hr Hp. unfold effective. apply rem_range.
  - pose proof (inject_Z_nonneg _ Hr). lra.
  - now apply inject_Z_pos.
Qed.

Lemma floor_range (x : Q) (n : Z) :
  0 <= x -> x < inject_Z n -> (0 <= Qfloor x < n)%Z.
Proof.
  intros Hlo Hhi. split.
  - rewrite <- (Qfloor_Z 0). now apply Qfloor_resp_le.
  - rewrite Zlt_Qlt. eapply Qle_lt_trans; [apply Qfloor_le | exact Hhi].
Qed.

(** ** The bracket of one card *)

Lemma bracket_range (len ringPos : Z) (p : Q) :
  (0 < len)%Z -> (0 <= ringPos)%Z -> 0 <= p ->
  let eff := effective len ringPos p in
  let t := weight eff in
  let pA := posA len eff in
  let pB := posB len pA in
  (0 <= t /\ t < 1) /\
  (0 <= pA < len)%Z /\ (0 <= pB < len)%Z /\
  pB = ((pA + 1) mod len)%Z /\
  eff == inject_Z pA + t.
Proof.
  intros Hlen Hr Hp eff t pA pB.
  destruct (effective_range len ringPos p Hlen Hr Hp) as [He0 He1].
  fold eff in He0, He1.
  destruct (floor_bounds eff) as [Hf0 Hf1].
  destruct (floor_range eff len He0 He1) as [Hz0 Hz1].
  assert (HpA : pA = Qfloor eff).
  { unfold pA, posA, JS.floor, JS.remZ.
    rewrite Z.rem_mod_nonneg by lia. apply Z.mod_small. lia. }
  assert (HpB : pB = ((pA + 1) mod len)%Z).
  { unfold pB, posB, JS.remZ. apply Z.rem_mod_nonneg; lia. }
  split; [unfold t, weight, JS.floor; split; lra | ].
  split; [lia | ].
  split; [rewrite HpB; apply Z.mod_pos_bound; lia | ].
  split; [exact HpB | ].
  rewrite HpA. unfold t, weight, JS.floor. ring.
Qed.

Lemma indexOfFrom_range (arr : list Z) (v : Z) :
  forall i : Z,
  JS.indexOfFrom arr v i = (-1)%Z \/
  (i <= JS.indexOfFrom arr v i < i + Z.of_nat (length arr))%Z.
Proof.
  induction arr as [| a rest IH]; intros i; cbn [JS.indexOfFrom length].
  - now left.
  - destruct (a =? v)%Z; [right; lia | ].
    destruct (IH (i + 1)%Z) as [H | H]; [now left | right; lia].
Qed.

Lemma get_defined {A : Type} (arr : list A) (k : Z) :
  (0 <= k < Z.of_nat (length arr))%Z -> exists a, JS.get arr k = Some a.
Proof.
  intros Hk. unfold JS.get.
  destruct (k <? 0)%Z eqn:E; [apply Z.ltb_lt in E; lia | ].
  destruct (nth_error arr (Z.to_nat k)) as [a |] eqn:En; [now exists a | ].
  apply nth_error_None in En. lia.
Qed.

(** C3: for any ring order, a card found in it by [indexOf] and progress
    [p >= 0], with [effective = (ringPos + p) % len]: the weight
    [effective - floor(effective)] lies in [[0, 1)]; [posA], computed as
    [floor(effective) % len], is [floor(effective)] itself and a ring
    index; [posB] is [(posA + 1) mod len], the cyclic successor of [posA];
    and both ring reads are defined. *)
Theorem weight_and_bracket (ring : list Z) (cardIndex : Z) (p : Q) :
  let len := Z.of_nat (length ring) in
  let ringPos := JS.indexOf ring cardIndex in
  ringPos <> (-1)%Z -> 0 <= p ->
  let eff := effective len ringPos p in
  let t := weight eff in
  let pA := posA len eff in
  let pB := posB len pA in
  (0 <= t /\ t < 1) /\
  (0 <= pA < len)%Z /\ pA = JS.floor eff /\
  (0 <= pB < len)%Z /\ pB = ((pA + 1) mod len)%Z /\
  eff == inject_Z pA + t /\
  exists slotA slotB,
    JS.get ring pA = Some slotA /\ JS.get ring pB = Some slotB.
Proof.
  intros len ringPos Hfound Hp eff t pA pB.
  assert (Hr : (0 <= ringPos < len)%Z).
  { destruct (indexOfFrom_range ring cardIndex 0) as [H | H];
      [contradiction | exact H]. }
  assert (Hlen : (0 < len)%Z) by lia.
  destruct (bracket_range len ringPos p Hlen (proj1 Hr) Hp)
    as (Ht & HA & HB & HBeq & Heq).
  fold eff in Ht, HA, HB, HBeq, Heq.
  destruct (get_defined ring _ HA) as [slotA HgA].
  destruct (get_defined ring _ HB) as [slotB HgB].
  split; [exact Ht | ]. split; [exact HA | ].
  split.
  { assert (Hfl : (0 <= JS.floor eff < len)%Z).
    { apply (floor_range eff len); apply effective_range; lia || assumption. }
    unfold pA, posA, JS.remZ. rewrite Z.rem_mod_nonneg by lia.
    now apply Z.mod_small. }
  split; [exact HB | ]. split; [exact HBeq | ]. split; [exact Heq | ].
  exists slotA, slotB. split; assumption.
Qed.

Lemma weight_and_bracket_witness :
  JS.indexOf CONFIG.ringOrder 4 <> (-1)%Z /\ 0 <= 17 # 4 /\
  let eff := effective 6 (JS.indexOf CONFIG.ringOrder 4) (17 # 4) in
  0 <= weight eff /\ weight eff < 1.
Proof.
  split; [discriminate | ]. split; [discriminate | ].
  apply (weight_and_bracket CONFIG.ringOrder 4 (17 # 4)).
  - discriminate.
  - discriminate.
Defined.

(** ** The ring order and array reads *)

Lemma range6 (k : Z) :
  (0 <= k < 6)%Z ->
  k = 0%Z \/ k = 1%Z \/ k = 2%Z \/ k = 3%Z \/ k = 4%Z \/ k = 5%Z.
Proof. lia. Qed.

Ltac each6 H :=
  destruct (range6 _ H) as [-> | [-> | [-> | [-> | [-> | ->]]]]].

Lemma ring_get (k : Z) :
  (0 <= k < 6)%Z ->
  JS.get CONFIG.ringOrder k = Some (ringSlot k) /\ (0 <= ringSlot k < 6)%Z.
Proof. intros H. each6 H; vm_compute; intuition congruence. Qed.

Lemma ring_indexOf (i : Z) :
  (0 <= i < 6)%Z ->
  (0 <= JS.indexOf CONFIG.ringOrder i < 6)%Z /\
  ringSlot (JS.indexOf CONFIG.ringOrder i) = i.
Proof. intros H. each6 H; vm_compute; intuition congruence. Qed.

Lemma ringSlot_mod (k : Z) : ringSlot (k mod 6) = ringSlot k.
Proof.
  unfold ringSlot. change (Z.of_nat (length CONFIG.ringOrder)) with 6%Z.
  now rewrite Z.mod_mod by lia.
Qed.

Lemma base_get (base : list position) (j : Z) :
  length base = 6%nat -> (0 <= j < 6)%Z ->
  JS.get base j = Some (baseAt base j).
Proof.
  intros Hlen Hj. unfold JS.get, baseAt.
  destruct (j <? 0)%Z eqn:E; [apply Z.ltb_lt in E; lia | ].
  apply nth_error_nth'. lia.
Qed.

(** The effective index at progress [p = n + t], [n] a whole number of
    steps and [t] a fraction of one. *)
Lemma effective_split (len r n : Z) (t p : Q) :
  (0 < len)%Z -> (0 <= r)%Z -> (0 <= n)%Z -> 0 <= t -> t < 1 ->
  p == inject_Z n + t ->
  let eff := effective len r p in
  posA len eff = ((r + n) mod len)%Z /\ weight eff == t.
Proof.
  intros Hlen Hr Hn Ht0 Ht1 Hpe eff.
  assert (Hp : 0 <= p).
  { pose proof (inject_Z_nonneg _ Hn). lra. }
  destruct (bracket_range len r _ Hlen Hr Hp)
    as [[Hw0 Hw1] [HA [_ [_ Heq]]]].
  fold eff in Hw0, Hw1, HA, Heq.
  set (pA := posA len eff) in *. set (w := weight eff) in *.
  set (x := inject_Z r + p).
  set (q := JS.trunc (x / inject_Z len)).
  assert (Hx : eff == x - inject_Z len * inject_Z q) by reflexivity.
  assert (Hd : inject_Z (r + n - len * q - pA) == w - t).
  { unfold Z.sub.
    rewrite !inject_Z_plus, !inject_Z_opp, inject_Z_mult.
    unfold x in Hx. lra. }
  assert (Hz : (r + n - len * q - pA = 0)%Z).
  { assert (H1 : inject_Z (r + n - len * q - pA) < inject_Z 1).
    { rewrite Hd. change (inject_Z 1) with 1. lra. }
    assert (H2 : inject_Z (-1) < inject_Z (r + n - len * q - pA)).
    { rewrite Hd. change (inject_Z (-1)) with (-(1)). lra. }
    rewrite <- Zlt_Qlt in H1, H2. lia. }
  split.
  - apply (Z.mod_unique_pos _ _ q); lia.
  - rewrite Hz in Hd. change (inject_Z 0) with 0 in Hd. lra.
Qed.

Lemma ringSlot_succ_mod (k : Z) : ringSlot (k mod 6 + 1) = ringSlot (k + 1).
Proof.
  unfold ringSlot. change (Z.of_nat (length CONFIG.ringOrder)) with 6%Z.
  now rewrite Z.add_mod_idemp_l by lia.
Qed.

(** ** One card of [applyPositions] *)

(** With six base positions no read is [undefined]: the callback of every
    card index below six reaches the assignment. *)
Lemma cardOffset_assigned (base : list position) (p : Q) (i : Z) :
  length base = 6%nat -> (0 <= i < 6)%Z -> 0 <= p ->
  let eff := effective 6 (JS.indexOf CONFIG.ringOrder i) p in
  let pA := posA 6 eff in
  let a := baseAt base (ringSlot pA) in
  let b := baseAt base (ringSlot (pA + 1)) in
  let own := baseAt base i in
  cardOffset CONFIG.ringOrder base p i =
    Assigned (lerp (posX a) (posX b) (weight eff) - posX own)
             (lerp (posY a) (posY b) (weight eff) - posY own).
Proof.
  intros Hlen Hi Hp eff pA a b own.
  destruct (ring_indexOf i Hi) as [Hr _].
  assert (H6 : (0 < 6)%Z) by lia.
  destruct (bracket_range 6 _ p H6 (proj1 Hr) Hp)
    as [_ [HA [HB [HBeq _]]]].
  fold eff in HA, HB, HBeq. fold pA in HA, HB, HBeq.
  destruct (ring_get pA HA) as [HgA HsA].
  destruct (ring_get _ HB) as [HgB HsB].
  rewrite HBeq in HsB. rewrite HBeq, ringSlot_mod in HgB.
  rewrite ringSlot_mod in HsB.
  unfold cardOffset.
  change (Z.of_nat (length CONFIG.ringOrder)) with 6%Z.
  destruct (JS.indexOf CONFIG.ringOrder i =? -1)%Z eqn:E;
    [apply Z.eqb_eq in E; lia | ].
  fold eff. fold pA. rewrite HgA.
  replace (posB 6 pA) with ((pA + 1) mod 6)%Z by (symmetry; exact HBeq).
  rewrite HgB.
  rewrite (base_get base _ Hlen HsA), (base_get base _ Hlen HsB),
    (base_get base i Hlen Hi).
  reflexivity.
Qed.

Lemma applyFrom_placeFrom (ring : list Z) (base : list position) (p : Q)
    (cs : list card) :
  forall i : Z,
  (forall k : Z, (i <= k < i + Z.of_nat (length cs))%Z ->
                 cardOffset ring base p k <> Raised) ->
  applyFrom ring base p i cs = Done (placeFrom ring base p i cs).
Proof.
  induction cs as [| c rest IH]; intros i Hok; [reflexivity | ].
  cbn [applyFrom placeFrom].
  assert (Hrest : applyFrom ring base p (i + 1) rest =
                  Done (placeFrom ring base p (i + 1) rest)).
  { apply IH. intros k Hk. apply Hok. cbn [length]. lia. }
  assert (Hi : cardOffset ring base p i <> Raised).
  { apply Hok. cbn [length]. lia. }
  destruct (cardOffset ring base p i); [ | congruence | ];
    rewrite Hrest; reflexivity.
Qed.

Lemma placeFrom_length (ring : list Z) (base : list position) (p : Q)
    (cs : list card) :
  forall i : Z, length (placeFrom ring base p i cs) = length cs.
Proof.
  induction cs as [| c rest IH]; intros i; cbn [placeFrom length];
    [reflexivity | now rewrite IH].
Qed.

Lemma placeFrom_nth (ring : list Z) (base : list position) (p : Q)
    (cs : list card) :
  forall (i : Z) (k : nat) (c : card),
  nth_error cs k = Some c ->
  nth_error (placeFrom ring base p i cs) k =
    Some match cardOffset ring base p (i + Z.of_nat k) with
         | Assigned dx dy => setTransform c (Translate dx dy)
         | _ => c
         end.
Proof.
  induction cs as [| c0 rest IH]; intros i k c Hk.
  - destruct k; discriminate.
  - destruct k as [| k]; cbn [nth_error placeFrom] in *.
    + injection Hk as ->. now rewrite Z.add_0_r.
    + rewrite (IH (i + 1)%Z k c Hk).
      replace (i + 1 + Z.of_nat k)%Z with (i + Z.of_nat (S k))%Z by lia.
      reflexivity.
Qed.

(** The whole update on six cards with six base positions. *)
Lemma applyPositions_done (s : state) :
  length (cards s) = 6%nat -> length (basePositions s) = 6%nat ->
  0 <= progress s ->
  applyPositions s =
    Done (setCards (placeFrom CONFIG.ringOrder (basePositions s) (progress s)
                      0 (cards s)) s).
Proof.
  intros Hc Hb Hp. unfold applyPositions.
  rewrite applyFrom_placeFrom; [reflexivity | ].
  intros k Hk. rewrite Hc in Hk.
  rewrite (cardOffset_assigned _ _ k Hb) by (lia || assumption).
  discriminate.
Qed.

(** ** The scenario at progress 2.25 *)

(** C1: six cards, ring order [0,1,3,5,4,2] and progress 2.25.  Card 0 sits
    at ring position 0, its effective index is 2.25, the bracket is ring
    positions 2 and 3, holding slots 3 and 5, the weight is 0.25, and the
    update writes on card 0 the offset
    [lerp(base[3], base[5], 0.25) - base[0]] in each axis. *)
Theorem scenario_progress_2_25 (s : state) (b0 b1 b2 b3 b4 b5 : position)
    (c0 c1 c2 c3 c4 c5 : card) :
  let base := [b0; b1; b2; b3; b4; b5] in
  let s0 := setProgress (225 # 100)
              (setBasePositions base (setCards [c0; c1; c2; c3; c4; c5] s)) in
  let ringPos := JS.indexOf CONFIG.ringOrder 0 in
  let eff := effective (Z.of_nat (length CONFIG.ringOrder)) ringPos (progress s0) in
  ringPos = 0%Z /\
  eff == 225 # 100 /\
  posA 6 eff = 2%Z /\ posB 6 (posA 6 eff) = 3%Z /\
  JS.get CONFIG.ringOrder 2 = Some 3%Z /\
  JS.get CONFIG.ringOrder 3 = Some 5%Z /\
  weight eff == 25 # 100 /\
  exists dx dy rest,
    applyPositions s0 =
      Done (setCards (setTransform c0 (Translate dx dy) :: rest) s0) /\
    dx == lerp (posX b3) (posX b5) (25 # 100) - posX b0 /\
    dy == lerp (posY b3) (posY b5) (25 # 100) - posY b0.
Proof.
  intros base s0 ringPos eff.
  assert (Heff : eff == 225 # 100) by (vm_compute; reflexivity).
  assert (HpA : posA 6 eff = 2%Z) by (vm_compute; reflexivity).
  assert (Hw : weight eff == 25 # 100) by (vm_compute; reflexivity).
  repeat (split; [first [reflexivity | assumption] | ]).
  assert (Hp : 0 <= 225 # 100) by discriminate.
  assert (Hi : (0 <= 0 < 6)%Z) by lia.
  assert (Hlen : length base = 6%nat) by reflexivity.
  pose proof (cardOffset_assigned base (225 # 100) 0 Hlen Hi Hp) as Hc.
  cbv zeta in Hc.
  change (effective 6 (JS.indexOf CONFIG.ringOrder 0) (225 # 100)) with eff in Hc.
  rewrite HpA in Hc.
  change (baseAt base (ringSlot 2)) with b3 in Hc.
  change (baseAt base (ringSlot (2 + 1))) with b5 in Hc.
  change (baseAt base 0) with b0 in Hc.
  eexists _, _, _. split; [ | split].
  - rewrite applyPositions_done by (reflexivity || exact Hp).
    change (basePositions s0) with base. change (progress s0) with (225 # 100).
    change (cards s0) with [c0; c1; c2; c3; c4; c5].
    cbn [placeFrom]. rewrite Hc. reflexivity.
  - unfold lerp. rewrite Hw. reflexivity.
  - unfold lerp. rewrite Hw. reflexivity.
Qed.

(** ** Array reads stay in bounds *)

Lemma ringOrder_permutation :
  Permutation CONFIG.ringOrder [0; 1; 2; 3; 4; 5]%Z.
Proof.
  unfold CONFIG.ringOrder. do 2 apply perm_skip.
  apply (Permutation_cons_app [2%Z] [4; 5]%Z 3%Z).
  apply (Permutation_cons_app [2; 4]%Z [] 5%Z).
  apply perm_swap.
Qed.

(** C10: once six base positions are captured for the six cards, an update
    at non-negative progress reads no array out of bounds.  The ring order
    is a permutation of 0..5; for every card index [indexOf] is not -1, the
    two ring reads and the three base-position reads are defined; and the
    update returns normally with a transform written on every card. *)
Theorem applyPositions_in_bounds (s : state) :
  length (cards s) = 6%nat -> length (basePositions s) = 6%nat ->
  0 <= progress s ->
  Permutation CONFIG.ringOrder [0; 1; 2; 3; 4; 5]%Z /\
  (forall i : Z, (0 <= i < 6)%Z ->
     let ring := CONFIG.ringOrder in
     let ringPos := JS.indexOf ring i in
     let eff := effective (Z.of_nat (length ring)) ringPos (progress s) in
     let pA := posA (Z.of_nat (length ring)) eff in
     let pB := posB (Z.of_nat (length ring)) pA in
     ringPos <> (-1)%Z /\
     exists slotA slotB a b own dx dy,
       JS.get ring pA = Some slotA /\ JS.get ring pB = Some slotB /\
       JS.get (basePositions s) slotA = Some a /\
       JS.get (basePositions s) slotB = Some b /\
       JS.get (basePositions s) i = Some own /\
       cardOffset ring (basePositions s) (progress s) i = Assigned dx dy) /\
  exists s',
    applyPositions s = Done s' /\
    length (cards s') = 6%nat /\
    forall (k : nat) (c : card),
      nth_error (cards s) k = Some c ->
      exists dx dy,
        cardOffset CONFIG.ringOrder (basePositions s) (progress s)
          (Z.of_nat k) = Assigned dx dy /\
        nth_error (cards s') k = Some (setTransform c (Translate dx dy)).
Proof.
  intros Hc Hb Hp.
  split; [exact ringOrder_permutation | split].
  - intros i Hi ring ringPos eff pA pB.
    change (Z.of_nat (length ring)) with 6%Z in *.
    assert (Hr : (0 <= ringPos < 6)%Z) by (apply ring_indexOf; exact Hi).
    assert (H6 : (0 < 6)%Z) by lia.
    assert (HA : (0 <= pA < 6)%Z)
      by apply (bracket_range 6 ringPos _ H6 (proj1 Hr) Hp).
    assert (HB : (0 <= pB < 6)%Z)
      by apply (bracket_range 6 ringPos _ H6 (proj1 Hr) Hp).
    destruct (ring_get pA HA) as [HgA HsA].
    destruct (ring_get pB HB) as [HgB HsB].
    split; [intros Hneg; rewrite Hneg in Hr; lia | ].
    exists (ringSlot pA), (ringSlot pB),
      (baseAt (basePositions s) (ringSlot pA)),
      (baseAt (basePositions s) (ringSlot pB)),
      (baseAt (basePositions s) i).
    eexists _, _.
    repeat split; try assumption; try (apply base_get; assumption).
    apply (cardOffset_assigned _ _ i Hb Hi Hp).
  - eexists. split; [apply applyPositions_done; assumption | ].
    cbn [cards setCards]. split; [now rewrite placeFrom_length | ].
    intros k c Hk.
    assert (Hlt : (k < 6)%nat).
    { rewrite <- Hc. apply nth_error_Some. congruence. }
    assert (Hi : (0 <= Z.of_nat k < 6)%Z) by lia.
    eexists _, _. split; [apply (cardOffset_assigned _ _ _ Hb Hi Hp) | ].
    rewrite (placeFrom_nth _ _ _ _ _ _ _ Hk). rewrite Z.add_0_l.
    rewrite (cardOffset_assigned _ _ _ Hb Hi Hp). reflexivity.
Qed.

(** ** Offsets as a function of progress *)

(** The transform shown by card [i] after an update at progress [p]. *)
Lemma renderedAt_assigned (s : state) (p : Q) (i : nat) :
  length (cards s) = 6%nat -> length (basePositions s) = 6%nat ->
  (i < 6)%nat -> 0 <= p ->
  exists dx dy,
    cardOffset CONFIG.ringOrder (basePositions s) p (Z.of_nat i) =
      Assigned dx dy /\
    renderedAt s p i = Some (Translate dx dy).
Proof.
  intros Hc Hb Hi Hp.
  assert (Hz : (0 <= Z.of_nat i < 6)%Z) by lia.
  destruct (nth_error (cards s) i) as [c |] eqn:Hk;
    [ | apply nth_error_None in Hk; lia].
  eexists _, _. split; [apply (cardOffset_assigned _ _ _ Hb Hz Hp) | ].
  unfold renderedAt.
  rewrite applyPositions_done by assumption.
  cbn [stateOf cards setCards setProgress basePositions progress].
  rewrite (placeFrom_nth _ _ _ _ _ _ _ Hk), Z.add_0_l.
  rewrite (cardOffset_assigned _ _ _ Hb Hz Hp). reflexivity.
Qed.

(** The offset written at progress [p = n + t] lies on the segment from
    ring position [r + n] to its successor, at weight [t]. *)
Lemma renderedAt_segment (s : state) (i : nat) (n : Z) (t p : Q) :
  length (cards s) = 6%nat -> length (basePositions s) = 6%nat ->
  (i < 6)%nat -> (0 <= n)%Z -> 0 <= t -> t < 1 -> p == inject_Z n + t ->
  let k := (JS.indexOf CONFIG.ringOrder (Z.of_nat i) + n)%Z in
  let a := baseAt (basePositions s) (ringSlot k) in
  let b := baseAt (basePositions s) (ringSlot (k + 1)) in
  let own := baseAt (basePositions s) (Z.of_nat i) in
  exists dx dy,
    renderedAt s p i = Some (Translate dx dy) /\
    dx == lerp (posX a) (posX b) t - posX own /\
    dy == lerp (posY a) (posY b) t - posY own.
Proof.
  intros Hc Hb Hi Hn Ht0 Ht1 Hpe k a b own.
  assert (Hp : 0 <= p).
  { pose proof (inject_Z_nonneg _ Hn). lra. }
  assert (Hz : (0 <= Z.of_nat i < 6)%Z) by lia.
  destruct (renderedAt_assigned s p i Hc Hb Hi Hp) as (dx & dy & Hoff & Hr).
  rewrite (cardOffset_assigned _ _ _ Hb Hz Hp) in Hoff.
  destruct (ring_indexOf _ Hz) as [[Hr0 _] _].
  assert (H6 : (0 < 6)%Z) by lia.
  destruct (effective_split 6 _ n t p H6 Hr0 Hn Ht0 Ht1 Hpe) as [HA Hw].
  cbv zeta in Hoff. rewrite HA in Hoff.
  rewrite ringSlot_mod, ringSlot_succ_mod in Hoff.
  injection Hoff as Hdx Hdy.
  exists dx, dy. split; [exact Hr | ].
  subst dx dy. unfold lerp. rewrite !Hw. split; reflexivity.
Qed.

(** ** Piecewise-linear paths *)

Section Path.

Variable a : Z -> Q.
Variable L : Q.
Hypothesis edge_bound : forall j : Z, Qabs (a (j + 1)%Z - a j) <= L.

Lemma nodes_bound (d : nat) (m : Z) :
  Qabs (a (m + Z.of_nat d)%Z - a m) <= L * inject_Z (Z.of_nat d).
Proof.
  induction d as [| d IH].
  - rewrite Z.add_0_r. cbn [Z.of_nat].
    assert (E : a m - a m == 0) by ring. rewrite E.
    change (Qabs 0) with 0. change (inject_Z 0) with 0. lra.
  - replace (m + Z.of_nat (S d))%Z with ((m + Z.of_nat d) + 1)%Z by lia.
    replace (Z.of_nat (S d)) with (Z.of_nat d + 1)%Z by lia.
    rewrite inject_Z_plus. change (inject_Z 1) with 1.
    pose proof (edge_bound (m + Z.of_nat d)) as He.
    apply Qabs_Qle_condition in IH. apply Qabs_Qle_condition in He.
    apply Qabs_Qle_condition. split; lra.
Qed.

Lemma scaled_edge (j : Z) (x : Q) :
  0 <= x ->
  - (L * x) <= (a (j + 1)%Z - a j) * x /\ (a (j + 1)%Z - a j) * x <= L * x.
Proof.
  intros Hx. pose proof (edge_bound j) as He.
  apply Qabs_Qle_condition in He. destruct He as [He1 He2].
  split.
  - assert (H : (- L) * x <= (a (j + 1)%Z - a j) * x)
      by (apply Qmult_le_compat_r; assumption).
    lra.
  - apply Qmult_le_compat_r; assumption.
Qed.

(** Moving forward along the path by [d] moves the point by at most
    [L * d]. *)
Lemma along_forward (n n' : Z) (t t' : Q) :
  0 <= t -> t < 1 -> 0 <= t' -> t' < 1 ->
  inject_Z n + t <= inject_Z n' + t' ->
  Qabs (along a n' t' - along a n t) <=
    L * ((inject_Z n' + t') - (inject_Z n + t)).
Proof.
  intros Ht0 Ht1 Ht0' Ht1' Hle.
  assert (Hn : (n <= n')%Z).
  { destruct (Z_le_gt_dec n n') as [H | H]; [exact H | exfalso].
    assert (H1 : (n' + 1 <= n)%Z) by lia.
    rewrite Zle_Qle, inject_Z_plus in H1. change (inject_Z 1) with 1 in H1.
    lra. }
  unfold along, lerp. apply Qabs_Qle_condition.
  destruct (Z.eq_dec n n') as [<- | Hne].
  - assert (Hx : 0 <= t' - t) by lra.
    destruct (scaled_edge n (t' - t) Hx) as [H1 H2].
    split; lra.
  - assert (Hd : (n' = (n + 1) + Z.of_nat (Z.to_nat (n' - n - 1)))%Z) by lia.
    pose proof (nodes_bound (Z.to_nat (n' - n - 1)) (n + 1)) as Hnodes.
    rewrite <- Hd in Hnodes.
    replace (Z.of_nat (Z.to_nat (n' - n - 1))) with (n' - n - 1)%Z in Hnodes
      by lia.
    unfold Z.sub in Hnodes.
    rewrite !inject_Z_plus, !inject_Z_opp in Hnodes.
    change (inject_Z 1) with 1 in Hnodes.
    apply Qabs_Qle_condition in Hnodes.
    assert (Hx : 0 <= 1 - t) by lra.
    destruct (scaled_edge n (1 - t) Hx) as [H1 H2].
    destruct (scaled_edge n' t' Ht0') as [H3 H4].
    split; lra.
Qed.

(** The same in either direction. *)
Lemma along_lipschitz (n n' : Z) (t t' p q : Q) :
  0 <= t -> t < 1 -> 0 <= t' -> t' < 1 ->
  p == inject_Z n + t -> q == inject_Z n' + t' ->
  Qabs (along a n' t' - along a n t) <= L * Qabs (q - p).
Proof.
  intros Ht0 Ht1 Ht0' Ht1' Hp Hq.
  destruct (Qlt_le_dec q p) as [Hlt | Hle].
  - assert (E : Qabs (q - p) == p - q).
    { rewrite <- Qabs_opp. rewrite Qabs_pos by lra. ring. }
    rewrite E.
    assert (E2 : along a n' t' - along a n t == - (along a n t - along a n' t'))
      by ring.
    rewrite E2, Qabs_opp.
    eapply Qle_trans; [apply along_forward; try assumption; lra | ].
    rewrite Hp, Hq. lra.
  - rewrite (Qabs_pos (q - p)) by lra.
    eapply Qle_trans; [apply along_forward; try assumption; lra | ].
    rewrite Hp, Hq. lra.
Qed.

End Path.

Lemma ringSpan_edges (base : list position) (j : Z) :
  Qabs (posX (baseAt base (ringSlot (j + 1))) -
        posX (baseAt base (ringSlot j))) <= ringSpan base /\
  Qabs (posY (baseAt base (ringSlot (j + 1))) -
        posY (baseAt base (ringSlot j))) <= ringSpan base.
Proof.
  rewrite <- (ringSlot_succ_mod j), <- (ringSlot_mod j).
  assert (Hk : (0 <= j mod 6 < 6)%Z) by (apply Z.mod_pos_bound; lia).
  set (ex := fun k : Z => Qabs (posX (baseAt base (ringSlot (k + 1))) -
                                 posX (baseAt base (ringSlot k)))).
  set (ey := fun k : Z => Qabs (posY (baseAt base (ringSlot (k + 1))) -
                                 posY (baseAt base (ringSlot k)))).
  assert (Hx : forall k, 0 <= ex k) by (intros k; apply Qabs_nonneg).
  assert (Hy : forall k, 0 <= ey k) by (intros k; apply Qabs_nonneg).
  assert (Hs : ringSpan base ==
               ex 0%Z + ey 0%Z + (ex 1%Z + ey 1%Z + (ex 2%Z + ey 2%Z +
               (ex 3%Z + ey 3%Z + (ex 4%Z + ey 4%Z + (ex 5%Z + ey 5%Z + 0))))))
    by reflexivity.
  change (ex (j mod 6)%Z <= ringSpan base /\ ey (j mod 6)%Z <= ringSpan base).
  rewrite Hs.
  pose proof (Hx 0%Z); pose proof (Hx 1%Z); pose proof (Hx 2%Z);
    pose proof (Hx 3%Z); pose proof (Hx 4%Z); pose proof (Hx 5%Z).
  pose proof (Hy 0%Z); pose proof (Hy 1%Z); pose proof (Hy 2%Z);
    pose proof (Hy 3%Z); pose proof (Hy 4%Z); pose proof (Hy 5%Z).
  clearbody ex ey.
  each6 Hk; split; lra.
Qed.

(** The offset of a card is Lipschitz in progress, with the span of the
    ring as constant: a small change of progress moves the card little. *)
Lemma renderedAt_lipschitz (s : state) (i : nat) (p q : Q) :
  length (cards s) = 6%nat -> length (basePositions s) = 6%nat ->
  (i < 6)%nat -> 0 <= p -> 0 <= q ->
  exists dx dy ex ey,
    renderedAt s p i = Some (Translate dx dy) /\
    renderedAt s q i = Some (Translate ex ey) /\
    Qabs (ex - dx) <= ringSpan (basePositions s) * Qabs (q - p) /\
    Qabs (ey - dy) <= ringSpan (basePositions s) * Qabs (q - p).
Proof.
  intros Hc Hb Hi Hp Hq.
  set (r := JS.indexOf CONFIG.ringOrder (Z.of_nat i)).
  set (base := basePositions s).
  assert (Hdec : forall u : Q, 0 <= u ->
            (0 <= Qfloor u)%Z /\ 0 <= u - inject_Z (Qfloor u) /\
            u - inject_Z (Qfloor u) < 1 /\
            u == inject_Z (Qfloor u) + (u - inject_Z (Qfloor u))).
  { intros u Hu. destruct (floor_bounds u) as [H0 H1].
    split; [rewrite <- (Qfloor_Z 0); now apply Qfloor_resp_le | ].
    repeat split; lra. }
  destruct (Hdec p Hp) as (Hn & Ht0 & Ht1 & Hpe).
  destruct (Hdec q Hq) as (Hn' & Ht0' & Ht1' & Hqe).
  set (n := Qfloor p) in *. set (t := p - inject_Z n) in *.
  set (n' := Qfloor q) in *. set (t' := q - inject_Z n') in *.
  destruct (renderedAt_segment s i n t p Hc Hb Hi Hn Ht0 Ht1 Hpe)
    as (dx & dy & Hr & Hdx & Hdy).
  destruct (renderedAt_segment s i n' t' q Hc Hb Hi Hn' Ht0' Ht1' Hqe)
    as (ex & ey & Hr' & Hex & Hey).
  cbv zeta in Hdx, Hdy, Hex, Hey. fold r in Hdx, Hdy, Hex, Hey.
  fold base in Hdx, Hdy, Hex, Hey.
  exists dx, dy, ex, ey. split; [exact Hr | ]. split; [exact Hr' | ].
  set (ax := fun j : Z => posX (baseAt base (ringSlot (r + j)))).
  set (ay := fun j : Z => posY (baseAt base (ringSlot (r + j)))).
  assert (Hax : forall j, Qabs (ax (j + 1)%Z - ax j) <= ringSpan base).
  { intros j. unfold ax. rewrite Z.add_assoc. apply ringSpan_edges. }
  assert (Hay : forall j, Qabs (ay (j + 1)%Z - ay j) <= ringSpan base).
  { intros j. unfold ay. rewrite Z.add_assoc. apply ringSpan_edges. }
  assert (Ex : ex - dx == along ax n' t' - along ax n t).
  { rewrite Hex, Hdx. unfold along, ax. rewrite !Z.add_assoc. ring. }
  assert (Ey : ey - dy == along ay n' t' - along ay n t).
  { rewrite Hey, Hdy. unfold along, ay. rewrite !Z.add_assoc. ring. }
  rewrite Ex, Ey. split.
  - now apply (along_lipschitz ax (ringSpan base) Hax n n' t t' p q).
  - now apply (along_lipschitz ay (ringSpan base) Hay n n' t t' p q).
Qed.

(** C2: for six captured base positions and any progress [p >= 0], write
    [p = n + t] with [n = floor p].  The offset the update gives card [i]
    is the interpolation, at weight [t] in [[0, 1)], between the base
    positions of ring positions [r + n] and [r + n + 1] (taken modulo the
    ring length, [r] the card's own ring position), minus the card's own
    base position.  At the next integer boundary [n + 1] the update gives
    the new segment at weight 0, which is the old segment at weight 1, and
    the offset at [p] differs from it by [(1 - t)] times the length of the
    old segment: the offset tends to the boundary value as [t] tends to 1.
    Moreover the offset at any other progress [q >= 0] differs from the one
    at [p] by at most the span of the ring times [|q - p|]: the offset is a
    continuous function of progress. *)
Theorem offsets_interpolate_continuously (s : state) (i : nat) (p : Q) :
  length (cards s) = 6%nat -> length (basePositions s) = 6%nat ->
  (i < 6)%nat -> 0 <= p ->
  let n := JS.floor p in
  let t := p - inject_Z n in
  let k := (JS.indexOf CONFIG.ringOrder (Z.of_nat i) + n)%Z in
  let A := fun j : Z => baseAt (basePositions s) (ringSlot j) in
  let own := baseAt (basePositions s) (Z.of_nat i) in
  (0 <= t /\ t < 1) /\
  exists dx dy dx1 dy1,
    renderedAt s p i = Some (Translate dx dy) /\
    dx == lerp (posX (A k)) (posX (A (k + 1)%Z)) t - posX own /\
    dy == lerp (posY (A k)) (posY (A (k + 1)%Z)) t - posY own /\
    renderedAt s (inject_Z (n + 1)) i = Some (Translate dx1 dy1) /\
    dx1 == lerp (posX (A (k + 1)%Z)) (posX (A (k + 2)%Z)) 0 - posX own /\
    dy1 == lerp (posY (A (k + 1)%Z)) (posY (A (k + 2)%Z)) 0 - posY own /\
    dx1 == lerp (posX (A k)) (posX (A (k + 1)%Z)) 1 - posX own /\
    dy1 == lerp (posY (A k)) (posY (A (k + 1)%Z)) 1 - posY own /\
    dx1 - dx == (1 - t) * (posX (A (k + 1)%Z) - posX (A k)) /\
    dy1 - dy == (1 - t) * (posY (A (k + 1)%Z) - posY (A k)) /\
    forall q : Q, 0 <= q ->
      exists ex ey,
        renderedAt s q i = Some (Translate ex ey) /\
        Qabs (ex - dx) <= ringSpan (basePositions s) * Qabs (q - p) /\
        Qabs (ey - dy) <= ringSpan (basePositions s) * Qabs (q - p).
Proof.
  intros Hc Hb Hi Hp n t k A own.
  destruct (floor_bounds p) as [Hf0 Hf1]. fold (JS.floor p) in Hf0, Hf1.
  fold n in Hf0, Hf1.
  assert (Ht : 0 <= t /\ t < 1) by (unfold t; split; lra).
  assert (Hn : (0 <= n)%Z).
  { unfold n, JS.floor. rewrite <- (Qfloor_Z 0). now apply Qfloor_resp_le. }
  split; [exact Ht | ]. destruct Ht as [Ht0 Ht1].
  assert (Hpe : p == inject_Z n + t) by (unfold t; ring).
  destruct (renderedAt_segment s i n t p Hc Hb Hi Hn Ht0 Ht1 Hpe)
    as (dx & dy & Hr & Hdx & Hdy).
  assert (Hn1 : (0 <= n + 1)%Z) by lia.
  assert (H00 : 0 <= 0) by lra.
  assert (H01 : 0 < 1) by lra.
  assert (Hpe1 : inject_Z (n + 1) == inject_Z (n + 1) + 0) by ring.
  destruct (renderedAt_segment s i (n + 1) 0 _ Hc Hb Hi Hn1 H00 H01 Hpe1)
    as (dx1 & dy1 & Hr1 & Hdx1 & Hdy1).
  cbv zeta in Hdx, Hdy, Hdx1, Hdy1.
  replace (JS.indexOf CONFIG.ringOrder (Z.of_nat i) + (n + 1))%Z
    with (k + 1)%Z in Hdx1, Hdy1 by (unfold k; lia).
  replace (k + 1 + 1)%Z with (k + 2)%Z in Hdx1, Hdy1 by lia.
  fold k in Hdx, Hdy. fold own in Hdx, Hdy, Hdx1, Hdy1.
  fold (A k) in Hdx, Hdy. fold (A (k + 1)%Z) in Hdx, Hdy, Hdx1, Hdy1.
  fold (A (k + 2)%Z) in Hdx1, Hdy1.
  exists dx, dy, dx1, dy1.
  split; [exact Hr | ]. split; [exact Hdx | ]. split; [exact Hdy | ].
  split; [exact Hr1 | ]. split; [exact Hdx1 | ]. split; [exact Hdy1 | ].
  unfold lerp in *.
  split; [rewrite Hdx1; ring | ]. split; [rewrite Hdy1; ring | ].
  split; [rewrite Hdx1, Hdx; ring | ]. split; [rewrite Hdy1, Hdy; ring | ].
  intros q Hq.
  destruct (renderedAt_lipschitz s i p q Hc Hb Hi Hp Hq)
    as (dx' & dy' & ex & ey & Hr' & Hrq & Hlx & Hly).
  rewrite Hr in Hr'. injection Hr' as <- <-.
  exists ex, ey. split; [exact Hrq | split; assumption].
Qed.

(** ** Position capture *)

Lemma setTransform_restore (c : card) :
  setTransform (setTransform c NoTransform) (cardTransform c) = c.
Proof. destruct c; reflexivity. Qed.

Lemma restoreFrom_clear (pre : list transform) (cs : list card) :
  restoreFrom (pre ++ map cardTransform cs) (length pre) (clearTransforms cs)
  = cs.
Proof.
  revert pre. induction cs as [| c rest IH]; intros pre; [reflexivity | ].
  cbn [clearTransforms map restoreFrom].
  rewrite app_nth2 by lia. rewrite Nat.sub_diag. cbn [nth].
  rewrite setTransform_restore. f_equal.
  specialize (IH (pre ++ [cardTransform c])).
  rewrite <- app_assoc, length_app in IH. cbn [app length] in IH.
  rewrite Nat.add_1_r in IH. exact IH.
Qed.

Lemma restoreFrom_clear0 (cs : list card) :
  restoreFrom (map cardTransform cs) 0 (clearTransforms cs) = cs.
Proof. exact (restoreFrom_clear [] cs). Qed.

Lemma measure_clear (g : position) (cs : list card) :
  measure g (clearTransforms cs) = naturalOffsets g cs.
Proof.
  unfold measure, clearTransforms, naturalOffsets. rewrite map_map.
  reflexivity.
Qed.

Lemma capture_done (s : state) (g : position) :
  grid s = Some g ->
  captureBasePositions s =
    Done (setPositionsCaptured true
            (setBasePositions (naturalOffsets g (cards s)) s)).
Proof.
  intros Hg. unfold captureBasePositions.
  cbn [grid setCards]. rewrite Hg.
  cbn [cards setCards setBasePositions].
  rewrite measure_clear.
  rewrite restoreFrom_clear0.
  unfold setPositionsCaptured, setBasePositions, setCards. cbn.
  reflexivity.
Qed.

Lemma capture_thrown (s : state) :
  grid s = None ->
  captureBasePositions s = Thrown (setCards (clearTransforms (cards s)) s).
Proof.
  intros Hg. unfold captureBasePositions. cbn [grid setCards].
  now rewrite Hg.
Qed.

(** C6: with the container bound, [captureBasePositions] returns a state
    that differs from the one it was called in only by [basePositions] (the
    natural boxes relative to the container) and [positionsCaptured]; in
    particular every card carries the transform it had before the call. *)
Theorem capture_restores_transforms (s : state) (g : position) :
  grid s = Some g ->
  exists s',
    captureBasePositions s = Done s' /\
    map cardTransform (cards s') = map cardTransform (cards s) /\
    cards s' = cards s /\
    s' = setPositionsCaptured true (setBasePositions (basePositions s') s) /\
    basePositions s' = naturalOffsets g (cards s) /\
    positionsCaptured s' = true /\
    grid s' = grid s /\ progress s' = progress s /\
    animationId s' = animationId s /\ lastTimestamp s' = lastTimestamp s /\
    frameCallbacks s' = frameCallbacks s /\ nextHandle s' = nextHandle s /\
    listening s' = listening s /\ timerPending s' = timerPending s /\
    innerWidth s' = innerWidth s /\ reducedMotion s' = reducedMotion s.
Proof.
  intros Hg. eexists. split; [apply (capture_done s g Hg) | ].
  cbn. repeat split; reflexivity.
Qed.

(** ** Resize *)

Lemma clearTransforms_twice (cs : list card) :
  clearTransforms (clearTransforms cs) = clearTransforms cs.
Proof. unfold clearTransforms. rewrite map_map. reflexivity. Qed.

Lemma naturalOffsets_map (g : position) (cs : list card) :
  naturalOffsets g cs =
  map (fun b => mkPosition (posX b - posX g) (posY b - posY g))
      (map natural cs).
Proof. unfold naturalOffsets. rewrite map_map. reflexivity. Qed.

Lemma applyFrom_natural (ring : list Z) (base : list position) (p : Q)
    (cs : list card) :
  forall i : Z,
  map natural (stateOf (applyFrom ring base p i cs)) = map natural cs.
Proof.
  induction cs as [| c rest IH]; intros i; [reflexivity | ].
  cbn [applyFrom]. specialize (IH (i + 1)%Z).
  destruct (cardOffset ring base p i); [ | reflexivity | ];
    destruct (applyFrom ring base p (i + 1) rest);
    cbn [omap stateOf map] in *; now rewrite IH.
Qed.

(** Running the update again on its own result changes nothing. *)
Lemma applyFrom_again (ring : list Z) (base : list position) (p : Q)
    (cs : list card) :
  forall i : Z,
  applyFrom ring base p i (stateOf (applyFrom ring base p i cs)) =
  applyFrom ring base p i cs.
Proof.
  induction cs as [| c rest IH]; intros i; [reflexivity | ].
  cbn [applyFrom]. specialize (IH (i + 1)%Z).
  destruct (cardOffset ring base p i) eqn:E.
  - destruct (applyFrom ring base p (i + 1) rest) eqn:E1;
      cbn [omap stateOf applyFrom] in *; rewrite E, IH; reflexivity.
  - cbn [stateOf applyFrom]. rewrite E. reflexivity.
  - destruct (applyFrom ring base p (i + 1) rest) eqn:E1;
      cbn [omap stateOf applyFrom] in *; rewrite E, IH; reflexivity.
Qed.

Lemma naturalOffsets_applyFrom (g : position) (ring : list Z)
    (base : list position) (p : Q) (i : Z) (cs : list card) :
  naturalOffsets g (stateOf (applyFrom ring base p i cs)) = naturalOffsets g cs.
Proof. now rewrite !naturalOffsets_map, applyFrom_natural. Qed.

Lemma stopLoop_fields (s : state) :
  grid (stopLoop s) = grid s /\ cards (stopLoop s) = cards s /\
  basePositions (stopLoop s) = basePositions s /\
  progress (stopLoop s) = progress s /\
  positionsCaptured (stopLoop s) = positionsCaptured s /\
  innerWidth (stopLoop s) = innerWidth s /\
  animationId (stopLoop s) = None.
Proof. unfold stopLoop. destruct (animationId s) eqn:E; cbn; now repeat split. Qed.

Lemma resizeWork_uncaptured (s : state) :
  positionsCaptured s = false -> resizeWork s = Done s.
Proof. intros H. unfold resizeWork. now rewrite H. Qed.

Lemma resizeWork_narrow (s : state) :
  positionsCaptured s = true -> (innerWidth s <? CONFIG.minWidth)%Z = true ->
  resizeWork s =
    Done (setProgress 0
            (setPositionsCaptured false
               (setCards (clearTransforms (cards s)) (stopLoop s)))).
Proof.
  intros Hc Hw. unfold resizeWork. rewrite Hc. cbn [negb].
  destruct (stopLoop_fields s) as (_ & Hcs & _ & _ & _ & Hiw & _).
  rewrite Hiw, Hw, Hcs. reflexivity.
Qed.

Lemma resizeWork_wide (s : state) :
  positionsCaptured s = true -> (innerWidth s <? CONFIG.minWidth)%Z = false ->
  let s' := stateOf (resizeWork s) in
  positionsCaptured s' = true /\ progress s' = progress s /\
  grid s' = grid s /\ innerWidth s' = innerWidth s /\
  match grid s with
  | None =>
      cards s' = clearTransforms (cards s) /\
      basePositions s' = basePositions s
  | Some g =>
      cards s' =
        stateOf (applyFrom CONFIG.ringOrder (naturalOffsets g (cards s))
                   (progress s) 0 (cards s)) /\
      basePositions s' = naturalOffsets g (cards s)
  end.
Proof.
  intros Hc Hw. unfold resizeWork. rewrite Hc. cbn [negb].
  destruct (stopLoop_fields s) as (Hg & Hcs & Hb & Hp & Hpc & Hiw & _).
  rewrite Hiw, Hw.
  destruct (grid s) as [g |] eqn:Eg.
  - rewrite (capture_done (stopLoop s) g) by congruence.
    cbn [bind]. unfold applyPositions.
    cbn [cards basePositions progress setPositionsCaptured setBasePositions].
    rewrite Hcs, Hp.
    destruct (applyFrom CONFIG.ringOrder (naturalOffsets g (cards s))
                (progress s) 0 (cards s)) as [X | X];
      cbn [omap bind stateOf]; [destruct (animationId s) | ]; cbn;
      repeat split; congruence.
  - rewrite (capture_thrown (stopLoop s)) by congruence.
    cbn. repeat split; congruence.
Qed.

Lemma clearTransforms_all (cs : list card) :
  Forall (fun c => cardTransform c = NoTransform) (clearTransforms cs).
Proof.
  unfold clearTransforms. apply Forall_forall. intros c Hin.
  apply in_map_iff in Hin. destruct Hin as (c0 & <- & _). reflexivity.
Qed.

Lemma handleMouseEnter_narrow (s : state) :
  (innerWidth s < CONFIG.minWidth)%Z -> handleMouseEnter s = Done s.
Proof.
  intros Hw. unfold handleMouseEnter.
  apply Z.ltb_lt in Hw. now rewrite Hw.
Qed.

Lemma step_enter_narrow (s : state) :
  (innerWidth s < CONFIG.minWidth)%Z -> step s MouseEnter = s.
Proof.
  intros Hw. cbn [step]. rewrite (handleMouseEnter_narrow s Hw).
  now destruct (listening s).
Qed.

Lemma run_enter_narrow (s : state) (n : nat) :
  (innerWidth s < CONFIG.minWidth)%Z -> run s (repeat MouseEnter n) = s.
Proof.
  intros Hw. induction n as [| n IH]; [reflexivity | ].
  cbn [repeat run fold_left]. rewrite (step_enter_narrow s Hw). exact IH.
Qed.

(** C5: positions captured, the loop running (one frame callback pending,
    its handle in [animationId]) and the viewport narrower than the
    breakpoint when the resize callback runs.  The callback returns with no
    frame callback pending and [animationId] null, every card's transform
    empty, the positions marked uncaptured and progress 0; and while the
    viewport stays narrow, hover-enter returns at the width check and
    leaves the state as it is, however often it fires. *)
Theorem narrow_resize_resets (s : state) :
  positionsCaptured s = true ->
  (innerWidth s < CONFIG.minWidth)%Z ->
  loopRunning s ->
  exists s',
    resizeWork s = Done s' /\
    frameCallbacks s' = [] /\ animationId s' = None /\
    Forall (fun c => cardTransform c = NoTransform) (cards s') /\
    length (cards s') = length (cards s) /\
    positionsCaptured s' = false /\
    progress s' = 0 /\
    (innerWidth s' < CONFIG.minWidth)%Z /\
    handleMouseEnter s' = Done s' /\
    step s' MouseEnter = s' /\
    forall n : nat, run s' (repeat MouseEnter n) = s'.
Proof.
  intros Hc Hw (h & Hid & Hfc).
  assert (Hwb : (innerWidth s <? CONFIG.minWidth)%Z = true)
    by now apply Z.ltb_lt.
  eexists. split; [apply (resizeWork_narrow s Hc Hwb) | ].
  assert (Hw' : (innerWidth (stopLoop s) < CONFIG.minWidth)%Z).
  { destruct (stopLoop_fields s) as (_ & _ & _ & _ & _ & -> & _). exact Hw. }
  cbn [frameCallbacks animationId cards positionsCaptured progress innerWidth
       setProgress setPositionsCaptured setCards].
  split.
  { unfold stopLoop. rewrite Hid. cbn. rewrite Hfc. cbn.
    now rewrite Z.eqb_refl. }
  split; [apply stopLoop_fields | ].
  split; [apply clearTransforms_all | ].
  split.
  { unfold clearTransforms. apply length_map. }
  split; [reflexivity | ]. split; [reflexivity | ].
  split; [exact Hw' | ].
  split; [now apply handleMouseEnter_narrow | ].
  split; [now apply step_enter_narrow | ].
  intros n. now apply run_enter_narrow.
Qed.

(** ** Init *)

Lemma moveCards_transforms (boxes : list position) (cs : list card) :
  map cardTransform (moveCards boxes cs) = map cardTransform cs.
Proof.
  revert boxes. induction cs as [| c rest IH]; intros [| b boxes];
    cbn [moveCards map]; try reflexivity.
  now rewrite IH.
Qed.

Lemma moveCards_length (boxes : list position) (cs : list card) :
  length (moveCards boxes cs) = length cs.
Proof.
  revert boxes. induction cs as [| c rest IH]; intros [| b boxes];
    cbn [moveCards length]; try reflexivity.
  now rewrite IH.
Qed.

Lemma runFrame_idle (timestamp : Q) (s : state) :
  frameCallbacks s = [] -> runFrame timestamp s = s.
Proof.
  intros H. unfold runFrame. rewrite H. cbn [fold_left].
  destruct s; cbn in *. now subst.
Qed.

Lemma step_inert (s : state) (e : event) :
  inert s ->
  inert (step s e) /\
  map cardTransform (cards (step s e)) = map cardTransform (cards s) /\
  animationState (step s e) = animationState s.
Proof.
  intros (Hl & Ht & Hf & Ha).
  destruct e; cbn [step]; rewrite ?Hl, ?Ht;
    try (repeat split; assumption).
  - rewrite (runFrame_idle _ _ Hf). repeat split; assumption.
  - unfold relayout, inert, animationState.
    destruct (grid (setViewport w rm s)); cbn;
      rewrite moveCards_transforms; repeat split; assumption.
Qed.

Lemma run_inert (es : list event) :
  forall s : state,
  inert s ->
  inert (run s es) /\
  map cardTransform (cards (run s es)) = map cardTransform (cards s) /\
  animationState (run s es) = animationState s.
Proof.
  induction es as [| e rest IH]; intros s Hs.
  - cbn [run fold_left]. split; [exact Hs | split; reflexivity].
  - cbn [run fold_left].
    destruct (step_inert s e Hs) as (Hi & Ht & Ha).
    destruct (IH _ Hi) as (Hi' & Ht' & Ha').
    unfold run in *. split; [exact Hi' | split; congruence].
Qed.

(** C8: on a freshly loaded page (nothing registered, nothing scheduled),
    when the container is missing, or it does not hold exactly six cards,
    or reduced motion is requested, [init] returns normally with no
    listener registered and the animation state (base positions, progress,
    frame handle, last timestamp, captured flag) untouched; and whatever
    events follow, hover-enter included, no frame callback is ever pending,
    no transform is written and the animation state stays as it was. *)
Theorem init_inapplicable (doc : option (position * list card)) (s : state) :
  inert s ->
  (doc = None \/
   (exists g cs, doc = Some (g, cs) /\ length cs <> 6%nat) \/
   reducedMotion s = true) ->
  exists s',
    init doc s = Done s' /\
    listening s' = false /\
    animationState s' = animationState s /\
    frameCallbacks s' = [] /\
    forall es : list event,
      frameCallbacks (run s' es) = [] /\
      animationId (run s' es) = None /\
      listening (run s' es) = false /\
      map cardTransform (cards (run s' es)) = map cardTransform (cards s') /\
      animationState (run s' es) = animationState s.
Proof.
  intros Hin Hcase.
  assert (Hgo : forall s' : state,
            init doc s = Done s' -> inert s' ->
            animationState s' = animationState s ->
            exists s'', init doc s = Done s'' /\
              listening s'' = false /\
              animationState s'' = animationState s /\
              frameCallbacks s'' = [] /\
              forall es : list event,
                frameCallbacks (run s'' es) = [] /\
                animationId (run s'' es) = None /\
                listening (run s'' es) = false /\
                map cardTransform (cards (run s'' es)) =
                  map cardTransform (cards s'') /\
                animationState (run s'' es) = animationState s).
  { intros s' Hi Hs' Ha. exists s'.
    split; [exact Hi | ]. split; [apply Hs' | ]. split; [exact Ha | ].
    split; [apply Hs' | ].
    intros es. destruct (run_inert es s' Hs') as ((Hl & _ & Hf & Hid) & Ht & Ha').
    repeat split; try assumption. congruence. }
  destruct Hin as (Hl & Ht & Hf & Ha).
  destruct doc as [[g cs] |].
  - destruct (Nat.eqb (length cs) 6) eqn:E.
    + destruct Hcase as [Hn | [(g' & cs' & Hd & Hlen) | Hrm]].
      * discriminate.
      * injection Hd as <- <-. apply Nat.eqb_eq in E. contradiction.
      * apply (Hgo (setCards cs (setGrid (Some g) s))).
        -- unfold init. rewrite E. cbn [negb].
           unfold prefersReducedMotion. cbn. now rewrite Hrm.
        -- repeat split; assumption.
        -- reflexivity.
    + apply (Hgo (setCards cs (setGrid (Some g) s))).
      * unfold init. now rewrite E.
      * repeat split; assumption.
      * reflexivity.
  - apply (Hgo (setGrid None s)).
    + reflexivity.
    + repeat split; assumption.
    + reflexivity.
Qed.

(** ** One loop at a time *)

Lemma stopLoop_single (s : state) :
  singleLoop s ->
  frameCallbacks (stopLoop s) = [] /\ animationId (stopLoop s) = None.
Proof.
  intros Hs. split; [ | apply stopLoop_fields].
  unfold stopLoop.
  destruct Hs as [Hf | (h & Hid & Hf)].
  - destruct (animationId s); cbn; rewrite Hf; reflexivity.
  - rewrite Hid. cbn. rewrite Hf. cbn. now rewrite Z.eqb_refl.
Qed.

Lemma scheduleAnimate_running (s : state) :
  frameCallbacks s = [] -> loopRunning (scheduleAnimate s).
Proof.
  intros Hf. exists (nextHandle s). cbn. now rewrite Hf.
Qed.

Lemma captureBasePositions_frames (s : state) :
  frameCallbacks (stateOf (captureBasePositions s)) = frameCallbacks s.
Proof.
  destruct (grid s) as [g |] eqn:E.
  - now rewrite (capture_done s g E).
  - now rewrite (capture_thrown s E).
Qed.

Lemma applyPositions_frames (s : state) :
  frameCallbacks (stateOf (applyPositions s)) = frameCallbacks s.
Proof. unfold applyPositions. now destruct (applyFrom _ _ _ _ _). Qed.

(** What a handler leaves pending when it ends by requesting a frame,
    possibly after steps that may raise. *)
Lemma single_after (o : outcome state) (k : state -> state) :
  frameCallbacks (stateOf o) = [] ->
  (forall s, frameCallbacks (k s) = frameCallbacks s) ->
  singleLoop (stateOf (bind o (fun s => Done (scheduleAnimate (k s))))).
Proof.
  intros Ho Hk. destruct o as [a | a]; cbn [bind stateOf] in *.
  - right. apply scheduleAnimate_running. now rewrite Hk.
  - now left.
Qed.

Lemma handleMouseEnter_single (s : state) :
  frameCallbacks s = [] -> singleLoop (stateOf (handleMouseEnter s)).
Proof.
  intros Hf. unfold handleMouseEnter.
  destruct (innerWidth s <? CONFIG.minWidth)%Z; [now left | ].
  destruct (prefersReducedMotion s); [now left | ].
  apply (single_after _ (setLastTimestamp None)); [ | reflexivity].
  destruct (positionsCaptured s); [exact Hf | ].
  now rewrite captureBasePositions_frames.
Qed.

Lemma animate_single (timestamp : Q) (s : state) :
  frameCallbacks s = [] -> singleLoop (stateOf (animate timestamp s)).
Proof.
  intros Hf. unfold animate.
  apply (single_after _ (fun s => s)); [ | reflexivity].
  rewrite applyPositions_frames. destruct (lastTimestamp s); exact Hf.
Qed.

Lemma resizeWork_single (s : state) :
  singleLoop s -> singleLoop (stateOf (resizeWork s)).
Proof.
  intros Hs. unfold resizeWork.
  destruct (positionsCaptured s); cbn [negb]; [ | exact Hs].
  destruct (stopLoop_single s Hs) as [Hf _].
  destruct (innerWidth (stopLoop s) <? CONFIG.minWidth)%Z; [now left | ].
  assert (Hc : frameCallbacks (stateOf (captureBasePositions (stopLoop s))) = [])
    by now rewrite captureBasePositions_frames.
  destruct (captureBasePositions (stopLoop s)) as [s2 | s2];
    cbn [bind stateOf] in *; [ | now left].
  assert (Ha : frameCallbacks (stateOf (applyPositions s2)) = [])
    by now rewrite applyPositions_frames.
  destruct (applyPositions s2) as [s3 | s3]; cbn [bind stateOf] in *;
    [ | now left].
  destruct (animationId s); cbn [stateOf]; [ | now left].
  right. now apply scheduleAnimate_running.
Qed.

Lemma runFrame_single (timestamp : Q) (s : state) :
  singleLoop s -> singleLoop (runFrame timestamp s).
Proof.
  intros [Hf | (h & _ & Hf)].
  - rewrite (runFrame_idle _ _ Hf). now left.
  - unfold runFrame. rewrite Hf. cbn [fold_left].
    now apply animate_single.
Qed.

(** Every event but a hover-enter over a recorded loop keeps at most the
    recorded frame callback pending. *)
Lemma step_single (s : state) (e : event) :
  singleLoop s -> orderly s e -> singleLoop (step s e).
Proof.
  intros Hs Ho. destruct e; cbn [step orderly] in *.
  - destruct (listening s); [ | exact Hs].
    apply handleMouseEnter_single.
    destruct Hs as [Hf | (h & Hid & _)]; [exact Hf | congruence].
  - destruct (listening s); [ | exact Hs].
    left. apply (stopLoop_single s Hs).
  - destruct (listening s); exact Hs.
  - destruct (timerPending s); [ | exact Hs].
    apply resizeWork_single. exact Hs.
  - now apply runFrame_single.
  - unfold relayout. destruct (grid (setViewport w rm s)); exact Hs.
Qed.

Lemma run_single (es : list event) :
  forall s : state,
  singleLoop s -> orderlyRun s es ->
  singleLoop (run s es) /\ (length (frameCallbacks (run s es)) <= 1)%nat.
Proof.
  induction es as [| e rest IH]; intros s Hs Ho.
  - cbn [run fold_left]. split; [exact Hs | ].
    destruct Hs as [-> | (h & _ & ->)]; cbn; lia.
  - cbn [run fold_left]. destruct Ho as [Ho1 Ho2].
    apply IH; [now apply step_single | exact Ho2].
Qed.

Lemma handleMouseEnter_guarded (s : state) :
  (innerWidth s <? CONFIG.minWidth)%Z = true \/ reducedMotion s = true ->
  handleMouseEnter s = Done s.
Proof.
  intros [Hw | Hr]; unfold handleMouseEnter, prefersReducedMotion.
  - now rewrite Hw.
  - rewrite Hr. now destruct (innerWidth s <? CONFIG.minWidth)%Z.
Qed.

Lemma step_idle (s : state) (e : event) :
  frameCallbacks s = [] -> animationId s = None -> idleEvent s e ->
  step s e = s.
Proof.
  intros Hf Ha Hi. destruct e; cbn [step idleEvent] in *; try contradiction.
  - rewrite (handleMouseEnter_guarded s Hi). now destruct (listening s).
  - unfold handleMouseLeave, stopLoop. rewrite Ha. now destruct (listening s).
  - now apply runFrame_idle.
Qed.

(** With no frame callback pending but the recorded one, hover-leave
    freezes the component: frames, further leaves and hover-enters stopped
    by a guard change nothing at all. *)
Lemma freeze_after_leave (s : state) (es : list event) :
  singleLoop s ->
  let s' := stateOf (handleMouseLeave s) in
  frameCallbacks s' = [] /\ animationId s' = None /\
  cards s' = cards s /\ progress s' = progress s /\
  basePositions s' = basePositions s /\
  (Forall (idleEvent s') es -> run s' es = s').
Proof.
  intros Hs s'. unfold s', handleMouseLeave. cbn [stateOf].
  destruct (stopLoop_single s Hs) as [Hf Ha].
  destruct (stopLoop_fields s) as (_ & Hc & Hb & Hp & _).
  repeat split; try assumption.
  induction es as [| e rest IH]; intros Hall; [reflexivity | ].
  cbn [run fold_left]. inversion Hall as [| ? ? He Hrest]; subst.
  rewrite (step_idle _ _ Hf Ha He). apply IH. exact Hrest.
Qed.

(** C9: two hover-enters with no hover-leave between them.  The second
    [handleMouseEnter] requests a frame without cancelling the one the
    first requested: two callbacks are pending, [animationId] records only
    the second, both run and reschedule themselves at the next frame, and a
    hover-leave cancels the recorded one and leaves the other pending. *)
Theorem double_enter_two_frames :
  let s1 := run demoStart [MouseEnter] in
  let s2 := run demoStart [MouseEnter; MouseEnter] in
  let s3 := run demoStart [MouseEnter; MouseEnter; MouseLeave] in
  let s4 := run demoStart [MouseEnter; MouseEnter; Frame 0] in
  listening demoStart = true /\ singleLoop demoStart /\
  frameCallbacks s1 = [1%Z] /\ animationId s1 = Some 1%Z /\
  frameCallbacks s2 = [1%Z; 2%Z] /\ animationId s2 = Some 2%Z /\
  ~ singleLoop s2 /\
  ~ (length (frameCallbacks s2) <= 1)%nat /\
  frameCallbacks s3 = [1%Z] /\ animationId s3 = None /\
  frameCallbacks s4 = [3%Z; 4%Z] /\ animationId s4 = Some 4%Z.
Proof.
  intros s1 s2 s3 s4.
  split; [reflexivity | ]. split; [left; reflexivity | ].
  split; [reflexivity | ]. split; [reflexivity | ].
  split; [reflexivity | ]. split; [reflexivity | ].
  split.
  { intros [Hf | (h & _ & Hf)]; vm_compute in Hf; discriminate. }
  split.
  { intros H. vm_compute in H. lia. }
  repeat split; reflexivity.
Qed.

(** C4: after two hover-enters and a hover-leave one frame callback is
    still pending.  The frames that follow run [animate]: progress moves
    from 0 to 0.45 over one second, the transforms of the cards change, and
    the loop keeps rescheduling itself, all after the hover-leave and with
    no further hover-enter. *)
Theorem frames_move_cards_after_leave :
  let sL := run demoStart [MouseEnter; MouseEnter; MouseLeave] in
  let sF := run sL [Frame 0; Frame 1000] in
  animationId sL = None /\ frameCallbacks sL = [1%Z] /\
  progress sL == 0 /\ progress sF == 45 # 100 /\
  map cardTransform (cards sL) =
    [NoTransform; NoTransform; NoTransform;
     NoTransform; NoTransform; NoTransform] /\
  map cardTransform (cards sF) <> map cardTransform (cards sL) /\
  frameCallbacks sF <> [] /\ animationId sF <> None.
Proof.
  intros sL sF.
  split; [reflexivity | ]. split; [reflexivity | ].
  split; [reflexivity | ]. split; [vm_compute; reflexivity | ].
  split; [reflexivity | ].
  split; [vm_compute; discriminate | ].
  split; vm_compute; discriminate.
Qed.

(** ** What holds in every state after a successful [init] *)

Lemma naturalOffsets_length (g : position) (cs : list card) :
  length (naturalOffsets g cs) = length cs.
Proof. unfold naturalOffsets. apply length_map. Qed.

Lemma activated_captured (s : state) :
  activated s -> positionsCaptured s = true \/ frameCallbacks s <> [] ->
  length (basePositions s) = 6%nat.
Proof.
  intros (_ & _ & _ & [H | [Hc Hf]]) Hor; [exact H | ].
  destruct Hor; congruence.
Qed.

Lemma stopLoop_activated (s : state) : activated s -> activated (stopLoop s).
Proof.
  intros (Hc & Hg & Hp & Hb).
  destruct (stopLoop_fields s) as (Eg & Ec & Eb & Ep & Epc & _ & _).
  unfold activated. rewrite Eg, Ec, Eb, Ep, Epc.
  repeat split; try assumption.
  destruct Hb as [Hb | [Hb1 Hb2]]; [now left | right].
  split; [exact Hb1 | ].
  unfold stopLoop. destruct (animationId s); cbn; now rewrite ?Hb2.
Qed.

Lemma capture_activated (s : state) :
  activated s ->
  exists s', captureBasePositions s = Done s' /\ activated s' /\
             length (basePositions s') = 6%nat /\
             lastTimestamp s' = lastTimestamp s /\
             positionsCaptured s' = true.
Proof.
  intros (Hc & Hg & Hp & Hb).
  destruct (grid s) as [g |] eqn:Eg; [ | congruence].
  eexists. split; [apply (capture_done s g Eg) | ].
  unfold activated. cbn. rewrite Eg, naturalOffsets_length, Hc.
  repeat split; try assumption; try congruence. now left.
Qed.

Lemma applyPositions_activated (s : state) :
  activated s -> length (basePositions s) = 6%nat ->
  exists s', applyPositions s = Done s' /\ activated s' /\
             length (basePositions s') = 6%nat /\
             lastTimestamp s' = lastTimestamp s /\
             positionsCaptured s' = positionsCaptured s /\
             animationId s' = animationId s.
Proof.
  intros (Hc & Hg & Hp & Hb) H6.
  eexists. split; [apply applyPositions_done; assumption | ].
  unfold activated. cbn. rewrite placeFrom_length.
  repeat split; try assumption; try (now left).
Qed.

Lemma scheduleAnimate_activated (s : state) :
  activated s -> length (basePositions s) = 6%nat ->
  activated (scheduleAnimate s).
Proof.
  intros (Hc & Hg & Hp & _) H6. unfold activated. cbn.
  repeat split; try assumption; try (now left).
Qed.

Lemma animate_activated (timestamp : Q) (s : state) :
  activated s -> length (basePositions s) = 6%nat ->
  match lastTimestamp s with Some l => l <= timestamp | None => True end ->
  exists s', animate timestamp s = Done s' /\ activated s' /\
             length (basePositions s') = 6%nat /\
             lastTimestamp s' = Some timestamp.
Proof.
  intros (Hc & Hg & Hp & Hb) H6 Ht. unfold animate.
  set (s1 := match lastTimestamp s with
             | Some _ => s
             | None => setLastTimestamp (Some timestamp) s
             end).
  set (last := match lastTimestamp s1 with
               | Some l => l
               | None => timestamp
               end).
  assert (Hlast : last <= timestamp).
  { unfold last, s1. destruct (lastTimestamp s) as [l |] eqn:E.
    - rewrite E. exact Ht.
    - cbn. lra. }
  assert (Hs1 : cards s1 = cards s /\ grid s1 = grid s /\
                basePositions s1 = basePositions s /\ progress s1 = progress s).
  { unfold s1. destruct (lastTimestamp s); now repeat split. }
  destruct Hs1 as (E1 & E2 & E3 & E4).
  set (s3 := setProgress _ _).
  assert (Hact : activated s3).
  { unfold activated, s3. cbn. rewrite E1, E2, E3, E4.
    repeat split; try assumption; [ | now left].
    assert (0 <= (timestamp - last) / 1000).
    { apply Qle_shift_div_l; [reflexivity | lra]. }
    assert (0 <= CONFIG.speed * ((timestamp - last) / 1000)).
    { apply Qmult_le_0_compat; [discriminate | assumption]. }
    lra. }
  assert (H63 : length (basePositions s3) = 6%nat).
  { unfold s3. cbn. now rewrite E3. }
  destruct (applyPositions_activated s3 Hact H63)
    as (s4 & -> & Hact4 & H64 & Hlt & _).
  cbn [bind]. eexists. split; [reflexivity | ].
  split; [now apply scheduleAnimate_activated | ].
  split; [exact H64 | ].
  cbn. exact Hlt.
Qed.

Lemma frames_activated (timestamp : Q) (cbs : list Z) :
  forall s : state,
  activated s -> length (basePositions s) = 6%nat ->
  match lastTimestamp s with Some l => l <= timestamp | None => True end ->
  activated (fold_left (fun st _ => stateOf (animate timestamp st)) cbs s).
Proof.
  induction cbs as [| h rest IH]; intros s Ha H6 Ht; [exact Ha | ].
  cbn [fold_left].
  destruct (animate_activated timestamp s Ha H6 Ht)
    as (s' & -> & Ha' & H6' & Hlt).
  cbn [stateOf]. apply IH; try assumption.
  rewrite Hlt. lra.
Qed.

Lemma runFrame_activated (timestamp : Q) (s : state) :
  activated s -> timely s (Frame timestamp) ->
  activated (runFrame timestamp s).
Proof.
  intros Ha Ht.
  destruct (frameCallbacks s) as [| h rest] eqn:Ef.
  - now rewrite (runFrame_idle _ _ Ef).
  - assert (H6 : length (basePositions s) = 6%nat).
    { apply (activated_captured s Ha). right. congruence. }
    unfold runFrame. apply frames_activated.
    + destruct Ha as (Hc & Hg & Hp & _). unfold activated. cbn.
      repeat split; try assumption; try (now left).
    + exact H6.
    + cbn in *. destruct (lastTimestamp s); exact Ht.
Qed.

Lemma handleMouseEnter_activated (s : state) :
  activated s -> activated (stateOf (handleMouseEnter s)).
Proof.
  intros Ha. unfold handleMouseEnter.
  destruct (innerWidth s <? CONFIG.minWidth)%Z; [exact Ha | ].
  destruct (prefersReducedMotion s); [exact Ha | ].
  destruct (positionsCaptured s) eqn:Ec.
  - cbn [bind stateOf].
    assert (H6 : length (basePositions s) = 6%nat)
      by (apply (activated_captured s Ha); now left).
    apply scheduleAnimate_activated; [ | exact H6].
    destruct Ha as (Hc & Hg & Hp & _). unfold activated. cbn.
    repeat split; try assumption; try (now left).
  - destruct (capture_activated s Ha) as (s' & -> & Ha' & H6 & _).
    cbn [bind stateOf].
    apply scheduleAnimate_activated; [ | exact H6].
    destruct Ha' as (Hc & Hg & Hp & _). unfold activated. cbn.
    repeat split; try assumption; try (now left).
Qed.

Lemma resizeWork_activated (s : state) :
  activated s -> exists s', resizeWork s = Done s' /\ activated s'.
Proof.
  intros Ha. unfold resizeWork.
  destruct (positionsCaptured s) eqn:Ec; cbn [negb]; [ | now exists s].
  assert (H6 : length (basePositions s) = 6%nat)
    by (apply (activated_captured s Ha); now left).
  pose proof (stopLoop_activated s Ha) as Ha1.
  destruct (stopLoop_fields s) as (_ & _ & Eb & _).
  destruct (innerWidth (stopLoop s) <? CONFIG.minWidth)%Z.
  - eexists. split; [reflexivity | ].
    destruct Ha1 as (Hc & Hg & Hp & _). unfold activated. cbn.
    unfold clearTransforms. rewrite length_map, Eb.
    repeat split; try assumption; [lra | now left].
  - destruct (capture_activated _ Ha1) as (s2 & -> & Ha2 & H62 & _).
    cbn [bind].
    destruct (applyPositions_activated s2 Ha2 H62)
      as (s3 & -> & Ha3 & H63 & _).
    cbn [bind].
    destruct (animationId s); [ | now exists s3].
    eexists. split; [reflexivity | ].
    apply scheduleAnimate_activated; [ | exact H63].
    destruct Ha3 as (Hc & Hg & Hp & _). unfold activated. cbn.
    repeat split; try assumption; try (now left).
Qed.

Lemma step_activated (s : state) (e : event) :
  activated s -> timely s e -> activated (step s e).
Proof.
  intros Ha Ht. destruct e; cbn [step].
  - destruct (listening s); [now apply handleMouseEnter_activated | exact Ha].
  - destruct (listening s); [now apply stopLoop_activated | exact Ha].
  - destruct (listening s); exact Ha.
  - destruct (timerPending s); [ | exact Ha].
    destruct (resizeWork_activated (setTimerPending false s) Ha)
      as (s' & -> & Ha').
    exact Ha'.
  - now apply runFrame_activated.
  - destruct Ha as (Hc & Hg & Hp & Hb). unfold relayout, activated.
    cbn [grid setViewport].
    destruct (grid s) eqn:Eg; [ | congruence].
    cbn. rewrite moveCards_length.
    repeat split; try assumption. discriminate.
Qed.

(** From a successful [init] on, whatever the events, as long as frame
    timestamps do not decrease: six cards, progress never negative, and six
    base positions whenever positions are captured or a frame is pending. *)
Lemma run_activated (es : list event) :
  forall s : state,
  activated s -> timelyRun s es -> activated (run s es).
Proof.
  induction es as [| e rest IH]; intros s Ha Ht; [exact Ha | ].
  cbn [run fold_left]. destruct Ht as [Ht1 Ht2].
  apply IH; [now apply step_activated | exact Ht2].
Qed.

Lemma init_activated (g : position) (cs : list card) (s : state) :
  length cs = 6%nat -> reducedMotion s = false -> inert s ->
  positionsCaptured s = false -> 0 <= progress s ->
  exists s', init (Some (g, cs)) s = Done s' /\
             listening s' = true /\ activated s' /\ singleLoop s'.
Proof.
  intros Hlen Hrm (Hl & Ht & Hf & Ha) Hpc Hp.
  eexists. split.
  - unfold init. rewrite Hlen. cbn [Nat.eqb negb].
    unfold prefersReducedMotion. cbn. rewrite Hrm. reflexivity.
  - cbn. split; [reflexivity | ]. split.
    + unfold activated. cbn. repeat split; try assumption; [discriminate | ].
      right. now split.
    + left. exact Hf.
Qed.

(** Every update that runs after a successful [init] and a capture
    returns normally. *)
Lemma reachable_update_returns (g : position) (cs : list card) (w : Z)
    (es : list event) :
  length cs = 6%nat ->
  let s0 := stateOf (init (Some (g, cs)) (initial w false)) in
  timelyRun s0 es ->
  let s := run s0 es in
  activated s /\
  (positionsCaptured s = true \/ frameCallbacks s <> [] ->
   exists s', applyPositions s = Done s').
Proof.
  intros Hlen s0 Ht s.
  assert (Hin : inert (initial w false)) by (repeat split; reflexivity).
  assert (H00 : 0 <= progress (initial w false)) by (cbn; lra).
  destruct (init_activated g cs (initial w false) Hlen eq_refl Hin eq_refl H00)
    as (s0' & Hi & _ & Ha & _).
  assert (Hs0 : s0 = s0') by (unfold s0; now rewrite Hi).
  assert (Hact : activated s).
  { unfold s. apply run_activated; [rewrite Hs0; exact Ha | exact Ht]. }
  split; [exact Hact | ].
  intros Hor.
  destruct (applyPositions_activated s Hact (activated_captured s Hact Hor))
    as (s' & Hd & _).
  now exists s'.
Qed.

(** When hover-enter and hover-leave alternate, at most one frame callback
    is pending in every state reached after a successful [init]. *)
Lemma reachable_single_loop (g : position) (cs : list card) (w : Z)
    (es : list event) :
  length cs = 6%nat ->
  let s0 := stateOf (init (Some (g, cs)) (initial w false)) in
  orderlyRun s0 es ->
  (length (frameCallbacks (run s0 es)) <= 1)%nat.
Proof.
  intros Hlen s0 Ho.
  apply run_single; [left | exact Ho].
  unfold s0, init. destruct (negb (length cs =? 6)%nat); [reflexivity | ].
  destruct (prefersReducedMotion _); reflexivity.
Qed.

(** ** Resizing twice *)

(** C7: the resize callback run twice in a row, with the viewport and the
    layout unchanged in between, leaves the cards (boxes and transforms),
    the progress, the captured flag and the base positions as one run
    does.  When the first run finds the positions captured and the viewport
    narrow, it resets and the second run returns at once at the
    uncaptured check; on a wide viewport the second run measures the same
    base positions and writes the same transforms.  After a successful
    [init] both runs return normally. *)
Theorem resize_twice_same (s : state) :
  let s1 := stateOf (resizeWork s) in
  let s2 := stateOf (resizeWork s1) in
  cards s2 = cards s1 /\
  progress s2 = progress s1 /\
  positionsCaptured s2 = positionsCaptured s1 /\
  basePositions s2 = basePositions s1 /\
  innerWidth s1 = innerWidth s /\
  (positionsCaptured s = true ->
   (innerWidth s <? CONFIG.minWidth)%Z = true ->
   positionsCaptured s1 = false /\ resizeWork s1 = Done s1) /\
  (activated s -> resizeWork s = Done s1 /\ resizeWork s1 = Done s2).
Proof.
  intros s1 s2.
  assert (Hdone : activated s ->
                  resizeWork s = Done s1 /\ resizeWork s1 = Done s2).
  { intros Ha. unfold s2, s1.
    destruct (resizeWork_activated s Ha) as (r1 & -> & Ha1). cbn [stateOf].
    destruct (resizeWork_activated r1 Ha1) as (r2 & -> & _).
    now split. }
  destruct (positionsCaptured s) eqn:Hc.
  - destruct (innerWidth s <? CONFIG.minWidth)%Z eqn:Hw.
    + assert (H1 : positionsCaptured s1 = false).
      { unfold s1. now rewrite resizeWork_narrow. }
      assert (H2 : resizeWork s1 = Done s1) by now apply resizeWork_uncaptured.
      unfold s2. rewrite H2. cbn [stateOf].
      repeat split; try reflexivity; try assumption; try (now apply Hdone).
      unfold s1. rewrite resizeWork_narrow by assumption. cbn.
      apply stopLoop_fields.
    + destruct (resizeWork_wide s Hc Hw) as (Hc1 & Hp1 & Hg1 & Hw1 & Hrest).
      fold s1 in Hc1, Hp1, Hg1, Hw1, Hrest.
      assert (Hw' : (innerWidth s1 <? CONFIG.minWidth)%Z = false)
        by now rewrite Hw1.
      destruct (resizeWork_wide s1 Hc1 Hw') as (Hc2 & Hp2 & _ & _ & Hrest2).
      fold s2 in Hc2, Hp2, Hrest2. rewrite Hg1 in Hrest2.
      destruct (grid s) as [g |].
      * destruct Hrest as [Hcs1 Hb1]. destruct Hrest2 as [Hcs2 Hb2].
        assert (Hn : naturalOffsets g (cards s1) = naturalOffsets g (cards s)).
        { rewrite Hcs1. apply naturalOffsets_applyFrom. }
        rewrite Hn, Hp1 in Hcs2. rewrite Hn in Hb2.
        repeat split; try congruence; try (now apply Hdone).
        rewrite Hcs2. rewrite Hcs1 at 1. rewrite applyFrom_again.
        symmetry. exact Hcs1.
      * destruct Hrest as [Hcs1 Hb1]. destruct Hrest2 as [Hcs2 Hb2].
        repeat split; try congruence; try (now apply Hdone).
        rewrite Hcs2, Hcs1. apply clearTransforms_twice.
  - assert (H1 : resizeWork s = Done s) by now apply resizeWork_uncaptured.
    assert (Hs1 : s1 = s) by (unfold s1; now rewrite H1).
    unfold s2. rewrite Hs1, H1. cbn [stateOf].
    repeat split; try reflexivity; try discriminate; now apply Hdone.
Qed.


(** ** Worked instances on the sample page *)

Lemma offsets_interpolate_continuously_witness :
  length (cards demoRunning) = 6%nat /\
  length (basePositions demoRunning) = 6%nat /\
  0 <= (225 # 100) - inject_Z (JS.floor (225 # 100)) /\
  (225 # 100) - inject_Z (JS.floor (225 # 100)) < 1.
Proof.
  split; [reflexivity | ]. split; [reflexivity | ].
  apply (offsets_interpolate_continuously demoRunning 0 (225 # 100)).
  - reflexivity.
  - reflexivity.
  - lia.
  - discriminate.
Defined.

Lemma applyPositions_in_bounds_witness :
  length (cards demoRunning) = 6%nat /\
  length (basePositions demoRunning) = 6%nat /\
  0 <= progress demoRunning /\
  Permutation CONFIG.ringOrder [0; 1; 2; 3; 4; 5]%Z.
Proof.
  split; [reflexivity | ]. split; [reflexivity | ].
  split; [vm_compute; discriminate | ].
  apply (applyPositions_in_bounds demoRunning).
  - reflexivity.
  - reflexivity.
  - vm_compute. discriminate.
Defined.

Lemma narrow_resize_resets_witness :
  positionsCaptured demoNarrow = true /\
  (innerWidth demoNarrow < CONFIG.minWidth)%Z /\
  loopRunning demoNarrow /\
  exists s',
    resizeWork demoNarrow = Done s' /\
    frameCallbacks s' = [] /\ animationId s' = None /\
    Forall (fun c => cardTransform c = NoTransform) (cards s') /\
    length (cards s') = length (cards demoNarrow) /\
    positionsCaptured s' = false /\
    progress s' = 0 /\
    (innerWidth s' < CONFIG.minWidth)%Z /\
    handleMouseEnter s' = Done s' /\
    step s' MouseEnter = s' /\
    forall n : nat, run s' (repeat MouseEnter n) = s'.
Proof.
  assert (Hrun : loopRunning demoNarrow).
  { exists 3%Z. split; reflexivity. }
  split; [reflexivity | ]. split; [reflexivity | ]. split; [exact Hrun | ].
  apply (narrow_resize_resets demoNarrow).
  - reflexivity.
  - reflexivity.
  - exact Hrun.
Defined.

Lemma capture_restores_transforms_witness :
  grid demoRunning = Some (mkPosition 40 60) /\
  exists s',
    captureBasePositions demoRunning = Done s' /\
    map cardTransform (cards s') = map cardTransform (cards demoRunning).
Proof.
  split; [reflexivity | ].
  destruct (capture_restores_transforms demoRunning (mkPosition 40 60))
    as (s' & Hdone & Htr & _); [reflexivity | ].
  exists s'. split; assumption.
Defined.

Lemma init_inapplicable_witness :
  inert (initial 1024 false) /\ inert (initial 1024 true) /\
  (exists s', init None (initial 1024 false) = Done s' /\ listening s' = false) /\
  (exists s', init (Some (mkPosition 40 60, tl demoCards)) (initial 1024 false)
              = Done s' /\ listening s' = false) /\
  (exists s', init demoDoc (initial 1024 true) = Done s' /\ listening s' = false).
Proof.
  assert (H0 : inert (initial 1024 false)) by (repeat split; reflexivity).
  assert (H1 : inert (initial 1024 true)) by (repeat split; reflexivity).
  split; [exact H0 | ]. split; [exact H1 | ].
  split; [ | split].
  - destruct (init_inapplicable None (initial 1024 false) H0)
      as (s' & Hd & Hl & _); [left; reflexivity | ].
    exists s'. split; assumption.
  - destruct (init_inapplicable (Some (mkPosition 40 60, tl demoCards))
                (initial 1024 false) H0) as (s' & Hd & Hl & _).
    + right. left. exists (mkPosition 40 60), (tl demoCards).
      split; [reflexivity | discriminate].
    + exists s'. split; assumption.
  - destruct (init_inapplicable demoDoc (initial 1024 true) H1)
      as (s' & Hd & Hl & _); [right; right; reflexivity | ].
    exists s'. split; assumption.
Defined.

(** * Further properties of the ring carousel *)

(** ** Rest positions and full cycles *)

Lemma ringSlot_injective (a b : Z) :
  ringSlot a = ringSlot b -> (a mod 6 = b mod 6)%Z.
Proof.
  rewrite <- (ringSlot_mod a), <- (ringSlot_mod b).
  assert (Ha : (0 <= a mod 6 < 6)%Z) by (apply Z.mod_pos_bound; lia).
  assert (Hb : (0 <= b mod 6 < 6)%Z) by (apply Z.mod_pos_bound; lia).
  each6 Ha; each6 Hb; vm_compute; congruence.
Qed.

(** X1: at a whole number [n] of steps every card rests exactly on the base
    position of the slot [n] ring positions ahead of its own, distinct
    cards on distinct slots; at progress 0 every offset is zero, so a
    first update moves no card. *)
Theorem integer_progress_rests_on_slot (s : state) (i : nat) (n : Z) :
  length (cards s) = 6%nat -> length (basePositions s) = 6%nat ->
  (i < 6)%nat -> (0 <= n)%Z ->
  let base := basePositions s in
  let slot := fun j : nat =>
    ringSlot (JS.indexOf CONFIG.ringOrder (Z.of_nat j) + n) in
  exists dx dy,
    renderedAt s (inject_Z n) i = Some (Translate dx dy) /\
    dx == posX (baseAt base (slot i)) - posX (baseAt base (Z.of_nat i)) /\
    dy == posY (baseAt base (slot i)) - posY (baseAt base (Z.of_nat i)) /\
    (0 <= slot i < 6)%Z /\
    (forall j : nat, (j < 6)%nat -> slot j = slot i -> j = i) /\
    (n = 0%Z -> dx == 0 /\ dy == 0).
Proof.
  intros Hc Hb Hi Hn base slot.
  assert (H00 : 0 <= 0) by lra.
  assert (H01 : 0 < 1) by lra.
  assert (Hpe : inject_Z n == inject_Z n + 0) by ring.
  destruct (renderedAt_segment s i n 0 _ Hc Hb Hi Hn H00 H01 Hpe)
    as (dx & dy & Hr & Hdx & Hdy).
  cbv zeta in Hdx, Hdy. fold base in Hdx, Hdy.
  assert (Hz : (0 <= Z.of_nat i < 6)%Z) by lia.
  destruct (ring_indexOf _ Hz) as [Hri Hsi].
  exists dx, dy. split; [exact Hr | ].
  split; [rewrite Hdx; unfold lerp, slot; ring | ].
  split; [rewrite Hdy; unfold lerp, slot; ring | ].
  split.
  { unfold slot. rewrite <- ringSlot_mod. apply ring_get.
    apply Z.mod_pos_bound. lia. }
  split.
  { intros j Hj Heq. unfold slot in Heq.
    assert (Hzj : (0 <= Z.of_nat j < 6)%Z) by lia.
    destruct (ring_indexOf _ Hzj) as [Hrj Hsj].
    apply ringSlot_injective in Heq.
    assert (E : JS.indexOf CONFIG.ringOrder (Z.of_nat j) =
                JS.indexOf CONFIG.ringOrder (Z.of_nat i)).
    { rewrite <- (Z.mod_small (JS.indexOf CONFIG.ringOrder (Z.of_nat j)) 6)
        by exact Hrj.
      rewrite <- (Z.mod_small (JS.indexOf CONFIG.ringOrder (Z.of_nat i)) 6)
        by exact Hri.
      rewrite (Z.add_mod (JS.indexOf CONFIG.ringOrder (Z.of_nat j)) n 6) in Heq
        by lia.
      rewrite (Z.add_mod (JS.indexOf CONFIG.ringOrder (Z.of_nat i)) n 6) in Heq
        by lia.
      set (a := (JS.indexOf CONFIG.ringOrder (Z.of_nat j) mod 6)%Z) in *.
      set (b := (JS.indexOf CONFIG.ringOrder (Z.of_nat i) mod 6)%Z) in *.
      assert (Ha : (0 <= a < 6)%Z) by (apply Z.mod_pos_bound; lia).
      assert (Hb' : (0 <= b < 6)%Z) by (apply Z.mod_pos_bound; lia).
      assert (Hm : (0 <= n mod 6 < 6)%Z) by (apply Z.mod_pos_bound; lia).
      set (m := (n mod 6)%Z) in *. clearbody a b m.
      each6 Ha; each6 Hb'; each6 Hm; vm_compute in Heq; congruence. }
    apply Nat2Z.inj. rewrite <- Hsj, <- Hsi. now rewrite E. }
  intros ->. unfold slot in *. rewrite Z.add_0_r in *.
  rewrite Hsi in *. split; [rewrite Hdx | rewrite Hdy]; unfold lerp; ring.
Qed.

Lemma ringSlot_period (k : Z) : ringSlot (k + 6) = ringSlot k.
Proof.
  rewrite <- (ringSlot_mod (k + 6)), <- (ringSlot_mod k).
  f_equal. rewrite <- (Z.mul_1_l 6) at 1. apply Z.mod_add. lia.
Qed.

Lemma progress_parts (p : Q) :
  0 <= p ->
  (0 <= Qfloor p)%Z /\ 0 <= p - inject_Z (Qfloor p) /\
  p - inject_Z (Qfloor p) < 1 /\
  p == inject_Z (Qfloor p) + (p - inject_Z (Qfloor p)).
Proof.
  intros Hp. destruct (floor_bounds p) as [H0 H1].
  split; [rewrite <- (Qfloor_Z 0); now apply Qfloor_resp_le | ].
  repeat split; lra.
Qed.

(** X2: six steps are a full cycle: the update writes the same offsets at
    progress [p + 6] as at progress [p]. *)
Theorem full_cycle_same_offsets (s : state) (i : nat) (p : Q) :
  length (cards s) = 6%nat -> length (basePositions s) = 6%nat ->
  (i < 6)%nat -> 0 <= p ->
  exists dx dy ex ey,
    renderedAt s p i = Some (Translate dx dy) /\
    renderedAt s (p + 6) i = Some (Translate ex ey) /\
    ex == dx /\ ey == dy.
Proof.
  intros Hc Hb Hi Hp.
  destruct (progress_parts p Hp) as (Hn & Ht0 & Ht1 & Hpe).
  set (n := Qfloor p) in *. set (t := p - inject_Z n) in *.
  destruct (renderedAt_segment s i n t p Hc Hb Hi Hn Ht0 Ht1 Hpe)
    as (dx & dy & Hr & Hdx & Hdy).
  assert (Hn6 : (0 <= n + 6)%Z) by lia.
  assert (Hpe6 : p + 6 == inject_Z (n + 6) + t).
  { rewrite inject_Z_plus. change (inject_Z 6) with 6. lra. }
  destruct (renderedAt_segment s i (n + 6) t _ Hc Hb Hi Hn6 Ht0 Ht1 Hpe6)
    as (ex & ey & Hr' & Hex & Hey).
  cbv zeta in Hdx, Hdy, Hex, Hey.
  rewrite Z.add_assoc in Hex, Hey.
  replace (JS.indexOf CONFIG.ringOrder (Z.of_nat i) + n + 6 + 1)%Z
    with (JS.indexOf CONFIG.ringOrder (Z.of_nat i) + n + 1 + 6)%Z
    in Hex, Hey by lia.
  rewrite !ringSlot_period in Hex, Hey.
  exists dx, dy, ex, ey.
  split; [exact Hr | ]. split; [exact Hr' | ].
  split; [now rewrite Hex, Hdx | now rewrite Hey, Hdy].
Qed.

(** X3: the position a card is sent to (its offset plus its own base
    position) lies, in each axis, between the base positions of the two
    slots that bracket it. *)
Theorem target_between_slots (s : state) (i : nat) (p : Q) :
  length (cards s) = 6%nat -> length (basePositions s) = 6%nat ->
  (i < 6)%nat -> 0 <= p ->
  let base := basePositions s in
  let k := (JS.indexOf CONFIG.ringOrder (Z.of_nat i) + JS.floor p)%Z in
  let a := baseAt base (ringSlot k) in
  let b := baseAt base (ringSlot (k + 1)) in
  let own := baseAt base (Z.of_nat i) in
  exists dx dy,
    renderedAt s p i = Some (Translate dx dy) /\
    ((posX a <= posX own + dx /\ posX own + dx <= posX b) \/
     (posX b <= posX own + dx /\ posX own + dx <= posX a)) /\
    ((posY a <= posY own + dy /\ posY own + dy <= posY b) \/
     (posY b <= posY own + dy /\ posY own + dy <= posY a)).
Proof.
  intros Hc Hb Hi Hp base k a b own.
  destruct (progress_parts p Hp) as (Hn & Ht0 & Ht1 & Hpe).
  destruct (renderedAt_segment s i _ _ p Hc Hb Hi Hn Ht0 Ht1 Hpe)
    as (dx & dy & Hr & Hdx & Hdy).
  cbv zeta in Hdx, Hdy.
  fold (JS.floor p) in Hdx, Hdy. fold k in Hdx, Hdy. fold base in Hdx, Hdy.
  fold a in Hdx, Hdy. fold b in Hdx, Hdy. fold own in Hdx, Hdy.
  set (t := p - inject_Z (Qfloor p)) in *.
  assert (Hbetween : forall u v : Q,
            (u <= lerp u v t /\ lerp u v t <= v) \/
            (v <= lerp u v t /\ lerp u v t <= u)).
  { intros u v. unfold lerp.
    destruct (Qlt_le_dec v u) as [Hvu | Huv].
    - right.
      assert (H1 : 0 <= (u - v) * t) by (apply Qmult_le_0_compat; lra).
      assert (H2 : 0 <= (u - v) * (1 - t)) by (apply Qmult_le_0_compat; lra).
      split; lra.
    - left.
      assert (H1 : 0 <= (v - u) * t) by (apply Qmult_le_0_compat; lra).
      assert (H2 : 0 <= (v - u) * (1 - t)) by (apply Qmult_le_0_compat; lra).
      split; lra. }
  exists dx, dy. split; [exact Hr | ].
  split.
  - assert (E : posX own + dx == lerp (posX a) (posX b) t) by (rewrite Hdx; unfold t, JS.floor; ring).
    rewrite E. apply Hbetween.
  - assert (E : posY own + dy == lerp (posY a) (posY b) t) by (rewrite Hdy; unfold t, JS.floor; ring).
    rewrite E. apply Hbetween.
Qed.

(** ** Resizing on a wide viewport *)

Lemma naturalOffsets_nth (g : position) (cs : list card) (i : nat) (c : card) :
  nth_error cs i = Some c ->
  baseAt (naturalOffsets g cs) (Z.of_nat i) =
    mkPosition (posX (natural c) - posX g) (posY (natural c) - posY g).
Proof.
  intros H. unfold baseAt, naturalOffsets. rewrite Nat2Z.id.
  apply nth_error_nth. rewrite nth_error_map, H. reflexivity.
Qed.

Lemma applyPositions_cards (s : state) :
  cards (stateOf (applyPositions s)) =
  stateOf (applyFrom CONFIG.ringOrder (basePositions s) (progress s) 0 (cards s)).
Proof. unfold applyPositions. now destruct (applyFrom _ _ _ _ _). Qed.

(** X4: on a wide viewport the resize callback re-measures the layout and
    re-applies the unchanged progress: afterwards every card is drawn,
    relative to the container, exactly at the interpolation between the
    newly measured base positions of its two bracketing slots. *)
Theorem resize_draws_cards_at_targets (s : state) (g : position) (i : nat)
    (c : card) :
  activated s -> positionsCaptured s = true ->
  (CONFIG.minWidth <= innerWidth s)%Z -> grid s = Some g ->
  nth_error (cards s) i = Some c ->
  let p := progress s in
  let t := p - inject_Z (JS.floor p) in
  let k := (JS.indexOf CONFIG.ringOrder (Z.of_nat i) + JS.floor p)%Z in
  exists s' c',
    resizeWork s = Done s' /\
    progress s' = p /\
    basePositions s' = naturalOffsets g (cards s) /\
    nth_error (cards s') i = Some c' /\
    natural c' = natural c /\
    posX (shownAt g c') ==
      lerp (posX (baseAt (basePositions s') (ringSlot k)))
           (posX (baseAt (basePositions s') (ringSlot (k + 1)))) t /\
    posY (shownAt g c') ==
      lerp (posY (baseAt (basePositions s') (ringSlot k)))
           (posY (baseAt (basePositions s') (ringSlot (k + 1)))) t.
Proof.
  intros Ha Hcap Hw Hg Hc p t k.
  assert (Hwb : (innerWidth s <? CONFIG.minWidth)%Z = false)
    by (apply Z.ltb_ge; exact Hw).
  destruct (resizeWork_activated s Ha) as (s' & Hdone & _).
  pose proof (resizeWork_wide s Hcap Hwb) as Hwide.
  rewrite Hdone, Hg in Hwide. cbn [stateOf] in Hwide.
  destruct Hwide as (_ & Hp' & _ & _ & Hcs & Hbase).
  destruct Ha as (Hlen & _ & Hp0 & _).
  set (base := naturalOffsets g (cards s)) in *.
  set (s2 := setBasePositions base s).
  assert (Hc2 : length (cards s2) = 6%nat) by exact Hlen.
  assert (Hb2 : length (basePositions s2) = 6%nat).
  { unfold s2, base. cbn. now rewrite naturalOffsets_length. }
  assert (Hi : (i < 6)%nat).
  { rewrite <- Hlen. apply nth_error_Some. congruence. }
  destruct (progress_parts p Hp0) as (Hn & Ht0 & Ht1 & Hpe).
  destruct (renderedAt_segment s2 i _ _ p Hc2 Hb2 Hi Hn Ht0 Ht1 Hpe)
    as (dx & dy & Hr & Hdx & Hdy).
  cbv zeta in Hdx, Hdy.
  change (basePositions s2) with base in Hdx, Hdy.
  unfold renderedAt in Hr.
  rewrite applyPositions_cards in Hr.
  unfold s2 in Hr.
  cbn [basePositions progress cards setProgress setBasePositions] in Hr.
  fold p in Hcs.
  rewrite <- Hcs in Hr.
  destruct (nth_error (cards s') i) as [c' |] eqn:Hc'; [ | discriminate].
  cbn [option_map] in Hr. injection Hr as Htr.
  assert (Hnat : natural c' = natural c).
  { assert (Hm : map natural (cards s') = map natural (cards s)).
    { rewrite Hcs. apply applyFrom_natural. }
    assert (H1 : nth_error (map natural (cards s')) i = Some (natural c'))
      by (rewrite nth_error_map, Hc'; reflexivity).
    rewrite Hm, nth_error_map, Hc in H1. cbn in H1. congruence. }
  exists s', c'.
  split; [exact Hdone | ]. split; [exact Hp' | ]. split; [exact Hbase | ].
  split; [exact Hc' | ]. split; [exact Hnat | ].
  rewrite Hbase.
  unfold shownAt, boundingRect. rewrite Htr, Hnat. cbn [posX posY].
  unfold base in Hdx at 3. unfold base in Hdy at 3.
  rewrite (naturalOffsets_nth g (cards s) i c Hc) in Hdx, Hdy.
  cbn [posX posY] in Hdx, Hdy.
  split; [rewrite Hdx | rewrite Hdy]; unfold k, t, JS.floor; ring.
Qed.

(** ** Frames *)

(** One run of [animate] in a state where the update cannot raise. *)
Lemma animate_effect (timestamp : Q) (s : state) :
  activated s -> length (basePositions s) = 6%nat ->
  match lastTimestamp s with Some l => l <= timestamp | None => True end ->
  let last := match lastTimestamp s with Some l => l | None => timestamp end in
  let p' := progress s + CONFIG.speed * ((timestamp - last) / 1000) in
  animate timestamp s =
    Done (scheduleAnimate
            (setCards (placeFrom CONFIG.ringOrder (basePositions s) p' 0 (cards s))
               (setProgress p' (setLastTimestamp (Some timestamp) s)))) /\
  progress s <= p'.
Proof.
  intros (Hc & Hg & Hp & Hb) H6 Ht last p'.
  assert (Hlast : last <= timestamp).
  { unfold last. destruct (lastTimestamp s); [exact Ht | lra]. }
  assert (Hd : 0 <= CONFIG.speed * ((timestamp - last) / 1000)).
  { apply Qmult_le_0_compat; [discriminate | ].
    apply Qle_shift_div_l; [reflexivity | lra]. }
  split; [ | unfold p'; lra].
  unfold animate.
  destruct (lastTimestamp s) as [l |] eqn:El.
  - rewrite El. rewrite applyPositions_done; cbn; try assumption.
    + reflexivity.
    + unfold last in Hd. lra.
  - cbn [lastTimestamp setLastTimestamp].
    rewrite applyPositions_done; cbn; try assumption.
    + reflexivity.
    + unfold last in Hd. lra.
Qed.

(** A frame while the loop is running. *)
Lemma runFrame_running (timestamp : Q) (s : state) :
  activated s -> loopRunning s -> timely s (Frame timestamp) ->
  let last := match lastTimestamp s with Some l => l | None => timestamp end in
  let p' := progress s + CONFIG.speed * ((timestamp - last) / 1000) in
  let s' := runFrame timestamp s in
  activated s' /\ loopRunning s' /\
  progress s' = p' /\ progress s <= p' /\
  lastTimestamp s' = Some timestamp /\
  basePositions s' = basePositions s /\
  cards s' = placeFrom CONFIG.ringOrder (basePositions s) p' 0 (cards s) /\
  positionsCaptured s' = positionsCaptured s /\
  listening s' = listening s /\ innerWidth s' = innerWidth s /\
  reducedMotion s' = reducedMotion s /\ grid s' = grid s /\
  timerPending s' = timerPending s.
Proof.
  intros Ha (h & Hid & Hf) Ht last p' s'.
  assert (H6 : length (basePositions s) = 6%nat).
  { apply (activated_captured s Ha). right. rewrite Hf. discriminate. }
  assert (Hact : activated s') by (apply runFrame_activated; assumption).
  set (s0 := setFrames [] (nextHandle s) s).
  assert (Ha0 : activated s0).
  { destruct Ha as (Hc & Hg & Hp & _). unfold activated, s0. cbn.
    repeat split; try assumption. now left. }
  assert (Ht0 : match lastTimestamp s0 with
                | Some l => l <= timestamp
                | None => True
                end).
  { unfold s0. cbn in *. destruct (lastTimestamp s); exact Ht. }
  destruct (animate_effect timestamp s0 Ha0 H6 Ht0) as [Hanim Hle].
  assert (Hs' : s' = stateOf (animate timestamp s0)).
  { unfold s', runFrame. rewrite Hf. reflexivity. }
  rewrite Hanim in Hs'. cbn [stateOf] in Hs'.
  split; [exact Hact | ].
  rewrite Hs'. cbn. split.
  { exists (nextHandle s). split; reflexivity. }
  repeat split; try reflexivity. exact Hle.
Qed.

Lemma last_cons {A : Type} (rest : list A) :
  forall t d : A, last (t :: rest) d = last rest t.
Proof.
  induction rest as [| u r IH]; intros t d; [reflexivity | ].
  change (last (t :: u :: r) d) with (last (u :: r) d).
  now rewrite (IH u d), (IH u t).
Qed.

Lemma ascending_last (ts : list Q) :
  forall t0 : Q, ascending t0 ts -> t0 <= last ts t0.
Proof.
  induction ts as [| u r IH]; intros t0 Hasc; [cbn; lra | ].
  destruct Hasc as [H1 H2]. rewrite last_cons.
  specialize (IH u H2). lra.
Qed.

Lemma frames_telescope (ts : list Q) :
  forall (s : state) (l : Q),
  activated s -> loopRunning s -> lastTimestamp s = Some l ->
  ascending l ts ->
  let s' := run s (map Frame ts) in
  activated s' /\ loopRunning s' /\
  lastTimestamp s' = Some (last ts l) /\
  progress s' == progress s + CONFIG.speed * ((last ts l - l) / 1000) /\
  basePositions s' = basePositions s /\
  positionsCaptured s' = positionsCaptured s.
Proof.
  induction ts as [| t rest IH]; intros s l Ha Hrun Hl Hasc.
  - cbn [map run fold_left last].
    split; [exact Ha | ]. split; [exact Hrun | ]. split; [exact Hl | ].
    split; [field | split; reflexivity].
  - destruct Hasc as [Hlt Hasc].
    assert (Htimely : timely s (Frame t)) by (cbn; rewrite Hl; exact Hlt).
    destruct (runFrame_running t s Ha Hrun Htimely)
      as (Ha1 & Hrun1 & Hp1 & _ & Hl1 & Hb1 & _ & Hpc1 & _).
    rewrite Hl in Hp1.
    destruct (IH (runFrame t s) t Ha1 Hrun1 Hl1 Hasc)
      as (Ha2 & Hrun2 & Hl2 & Hp2 & Hb2 & Hpc2).
    cbn [map run fold_left step].
    unfold run in Ha2, Hrun2, Hl2, Hp2, Hb2, Hpc2.
    rewrite last_cons.
    split; [exact Ha2 | ]. split; [exact Hrun2 | ]. split; [exact Hl2 | ].
    split; [ | split; congruence].
    rewrite Hp2, Hp1. field.
Qed.

(** X5: a run of frames after a hover-enter advances progress by the speed
    times the time between the first and the last frame of the run: the
    first frame adds nothing, and the time before it does not count. *)
Theorem frames_advance_by_elapsed_time (s : state) (t0 : Q) (ts : list Q) :
  activated s -> loopRunning s -> lastTimestamp s = None ->
  ascending t0 ts ->
  let s' := run s (map Frame (t0 :: ts)) in
  progress (run s [Frame t0]) == progress s /\
  progress s' == progress s + CONFIG.speed * ((last ts t0 - t0) / 1000) /\
  progress s <= progress s' /\
  lastTimestamp s' = Some (last ts t0) /\
  loopRunning s' /\ basePositions s' = basePositions s.
Proof.
  intros Ha Hrun Hl Hasc s'.
  assert (Htimely : timely s (Frame t0)) by (cbn; now rewrite Hl).
  destruct (runFrame_running t0 s Ha Hrun Htimely)
    as (Ha1 & Hrun1 & Hp1 & _ & Hl1 & Hb1 & _).
  rewrite Hl in Hp1.
  assert (E0 : progress (runFrame t0 s) == progress s).
  { rewrite Hp1. field. }
  destruct (frames_telescope ts (runFrame t0 s) t0 Ha1 Hrun1 Hl1 Hasc)
    as (Ha2 & Hrun2 & Hl2 & Hp2 & Hb2 & _).
  unfold s'. cbn [map run fold_left step]. unfold run in *.
  split; [exact E0 | ].
  assert (Hsum : progress (fold_left step (map Frame ts) (runFrame t0 s)) ==
                 progress s + CONFIG.speed * ((last ts t0 - t0) / 1000)).
  { rewrite Hp2, E0. reflexivity. }
  split; [exact Hsum | ].
  split.
  { rewrite Hsum.
    pose proof (ascending_last ts t0 Hasc) as Hge.
    assert (0 <= CONFIG.speed * ((last ts t0 - t0) / 1000)).
    { apply Qmult_le_0_compat; [discriminate | ].
      apply Qle_shift_div_l; [reflexivity | lra]. }
    lra. }
  split; [exact Hl2 | ]. split; [exact Hrun2 | congruence].
Qed.

(** ** Pause and resume *)

Lemma handleMouseEnter_starts (s : state) :
  (CONFIG.minWidth <= innerWidth s)%Z -> reducedMotion s = false ->
  positionsCaptured s = true ->
  handleMouseEnter s = Done (scheduleAnimate (setLastTimestamp None s)).
Proof.
  intros Hw Hrm Hc. unfold handleMouseEnter, prefersReducedMotion.
  apply Z.ltb_ge in Hw. now rewrite Hw, Hrm, Hc.
Qed.

(** X6: leaving and re-entering resumes from the frozen progress.  Hover-
    leave keeps progress and transforms; the first frame after the next
    hover-enter, whatever its timestamp, leaves progress where it was and
    writes the offsets that belong to it; the loop is running again and
    the base positions are not measured anew. *)
Theorem resume_from_frozen_progress (s : state) (timestamp : Q) (i : nat) :
  activated s -> singleLoop s -> listening s = true ->
  positionsCaptured s = true ->
  (CONFIG.minWidth <= innerWidth s)%Z -> reducedMotion s = false ->
  (i < 6)%nat ->
  let s1 := run s [MouseLeave] in
  let s2 := run s [MouseLeave; MouseEnter; Frame timestamp] in
  let p := progress s in
  let t := p - inject_Z (JS.floor p) in
  let k := (JS.indexOf CONFIG.ringOrder (Z.of_nat i) + JS.floor p)%Z in
  let A := fun j : Z => baseAt (basePositions s) (ringSlot j) in
  let own := baseAt (basePositions s) (Z.of_nat i) in
  calm s1 /\ cards s1 = cards s /\ progress s1 = p /\
  loopRunning s2 /\ progress s2 == p /\
  basePositions s2 = basePositions s /\
  exists c' dx dy,
    nth_error (cards s2) i = Some c' /\
    cardTransform c' = Translate dx dy /\
    dx == lerp (posX (A k)) (posX (A (k + 1)%Z)) t - posX own /\
    dy == lerp (posY (A k)) (posY (A (k + 1)%Z)) t - posY own.
Proof.
  intros Ha Hs Hl Hcap Hw Hrm Hi s1 s2 p t k A own.
  assert (Es1 : s1 = stopLoop s).
  { unfold s1. cbn [run fold_left step]. now rewrite Hl. }
  destruct (stopLoop_single s Hs) as [Hf1 Hid1].
  destruct (stopLoop_fields s) as (Eg & Ec & Eb & Ep & Epc & Ew & _).
  pose proof (stopLoop_activated s Ha) as Ha1.
  assert (El1 : listening (stopLoop s) = true)
    by (unfold stopLoop; destruct (animationId s); exact Hl).
  assert (Er1 : reducedMotion (stopLoop s) = false)
    by (unfold stopLoop; destruct (animationId s); exact Hrm).
  set (s1' := scheduleAnimate (setLastTimestamp None (stopLoop s))).
  assert (Es2 : s2 = runFrame timestamp s1').
  { unfold s2. cbn [run fold_left step]. rewrite Hl. cbn [stateOf handleMouseLeave].
    rewrite El1. rewrite handleMouseEnter_starts; try congruence.
    reflexivity. }
  assert (H6 : length (basePositions s) = 6%nat)
    by (apply (activated_captured s Ha); now left).
  assert (Ha1' : activated s1').
  { apply scheduleAnimate_activated; [ | cbn; congruence].
    destruct Ha1 as (Hc1 & Hg1 & Hp1 & _). unfold activated. cbn.
    repeat split; try assumption. left. congruence. }
  assert (Hrun1' : loopRunning s1').
  { apply scheduleAnimate_running. exact Hf1. }
  assert (Htimely : timely s1' (Frame timestamp)) by exact I.
  destruct (runFrame_running timestamp s1' Ha1' Hrun1' Htimely)
    as (_ & Hrun2 & Hp2 & _ & _ & Hb2 & Hcs2 & _).
  rewrite <- Es2 in Hrun2, Hp2, Hb2, Hcs2.
  change (lastTimestamp s1') with (@None Q) in Hp2, Hcs2.
  change (progress s1') with (progress (stopLoop s)) in Hp2, Hcs2.
  change (basePositions s1') with (basePositions (stopLoop s)) in Hb2, Hcs2.
  change (cards s1') with (cards (stopLoop s)) in Hcs2.
  rewrite Ep in Hp2, Hcs2. rewrite Eb in Hb2, Hcs2. rewrite Ec in Hcs2.
  fold p in Hp2, Hcs2.
  set (p' := p + CONFIG.speed * ((timestamp - timestamp) / 1000)) in *.
  assert (Epp : p' == p) by (unfold p'; field).
  split; [rewrite Es1; now split | ].
  split; [rewrite Es1; exact Ec | ]. split; [rewrite Es1; exact Ep | ].
  split; [exact Hrun2 | ]. split; [rewrite Hp2; exact Epp | ].
  split; [exact Hb2 | ].
  destruct Ha as (Hc6 & _ & Hp0 & _). fold p in Hp0.
  destruct (progress_parts p Hp0) as (Hn & Ht0 & Ht1 & Hpe).
  assert (Hpe' : p' == inject_Z (Qfloor p) + (p - inject_Z (Qfloor p)))
    by (rewrite Epp; exact Hpe).
  destruct (renderedAt_segment s i _ _ p' Hc6 H6 Hi Hn Ht0 Ht1 Hpe')
    as (dx & dy & Hr & Hdx & Hdy).
  unfold renderedAt in Hr.
  rewrite applyPositions_done in Hr; cbn; try assumption; [ | lra].
  cbn [stateOf cards setCards setProgress basePositions progress] in Hr.
  rewrite <- Hcs2 in Hr.
  destruct (nth_error (cards s2) i) as [c' |] eqn:Hnth; [ | discriminate].
  cbn [option_map] in Hr. injection Hr as Htr.
  exists c', dx, dy. split; [exact Hnth | ]. split; [exact Htr | ].
  split; [exact Hdx | exact Hdy].
Qed.

(** The resize callback on a wide viewport, after a successful [init]. *)
Lemma resizeWork_wide_done (s : state) (g : position) :
  activated s -> positionsCaptured s = true ->
  (CONFIG.minWidth <= innerWidth s)%Z -> grid s = Some g ->
  let base := naturalOffsets g (cards s) in
  let s3 :=
    setCards (placeFrom CONFIG.ringOrder base (progress s) 0 (cards s))
      (setPositionsCaptured true (setBasePositions base (stopLoop s))) in
  resizeWork s =
    Done (match animationId s with
          | Some _ => scheduleAnimate (setLastTimestamp None s3)
          | None => s3
          end).
Proof.
  intros Ha Hcap Hw Hg base s3.
  destruct (stopLoop_fields s) as (Eg & Ec & Eb & Ep & Epc & Ew & _).
  unfold resizeWork. rewrite Hcap. cbn [negb].
  apply Z.ltb_ge in Hw. rewrite Ew, Hw.
  rewrite (capture_done (stopLoop s) g) by congruence.
  cbn [bind]. rewrite Ec. fold base.
  destruct Ha as (Hc & _ & Hp & _).
  rewrite applyPositions_done; cbn; rewrite ?Ec, ?Ep;
    try assumption; [ | unfold base; now rewrite naturalOffsets_length].
  fold base. unfold s3. destruct (animationId s); reflexivity.
Qed.

(** X7: a wide resize keeps what was going on.  Progress and the captured
    flag stay; a running loop is cancelled and requested again, once, with
    the last timestamp forgotten, whatever the motion preference at that
    moment; an idle component stays idle. *)
Theorem wide_resize_keeps_loop (s : state) (g : position) :
  activated s -> positionsCaptured s = true ->
  (CONFIG.minWidth <= innerWidth s)%Z -> grid s = Some g ->
  singleLoop s ->
  exists s',
    resizeWork s = Done s' /\
    progress s' = progress s /\ positionsCaptured s' = true /\
    basePositions s' = naturalOffsets g (cards s) /\
    (loopRunning s ->
     loopRunning s' /\ lastTimestamp s' = None /\
     animationId s' = Some (nextHandle s)) /\
    (animationId s = None -> calm s' /\ lastTimestamp s' = lastTimestamp s).
Proof.
  intros Ha Hcap Hw Hg Hs.
  eexists. split; [apply (resizeWork_wide_done s g); assumption | ].
  destruct (stopLoop_single s Hs) as [Hf Hid].
  destruct (stopLoop_fields s) as (_ & _ & _ & Ep & _).
  split; [destruct (animationId s); cbn; exact Ep | ].
  split; [destruct (animationId s); reflexivity | ].
  split; [destruct (animationId s); reflexivity | ].
  split.
  - intros (h & Hh & Hfc). rewrite Hh. split.
    + apply scheduleAnimate_running. cbn. exact Hf.
    + split; [reflexivity | ]. cbn. unfold stopLoop. now rewrite Hh.
  - intros Hnone. rewrite Hnone. cbn.
    unfold calm, stopLoop in *. rewrite Hnone in *. cbn.
    repeat split; try assumption.
Qed.

(** ** The guards *)

Lemma captureBasePositions_quiet (s : state) :
  animationId (stateOf (captureBasePositions s)) = animationId s /\
  innerWidth (stateOf (captureBasePositions s)) = innerWidth s /\
  reducedMotion (stateOf (captureBasePositions s)) = reducedMotion s.
Proof.
  destruct (grid s) as [g |] eqn:E.
  - rewrite (capture_done s g E). now repeat split.
  - rewrite (capture_thrown s E). now repeat split.
Qed.

Lemma applyPositions_quiet (s : state) :
  animationId (stateOf (applyPositions s)) = animationId s /\
  innerWidth (stateOf (applyPositions s)) = innerWidth s /\
  reducedMotion (stateOf (applyPositions s)) = reducedMotion s.
Proof. unfold applyPositions. now destruct (applyFrom _ _ _ _ _). Qed.

Lemma resizeWork_calm (s : state) :
  calm s ->
  calm (stateOf (resizeWork s)) /\
  innerWidth (stateOf (resizeWork s)) = innerWidth s /\
  reducedMotion (stateOf (resizeWork s)) = reducedMotion s.
Proof.
  intros [Hf Hid]. unfold resizeWork.
  destruct (positionsCaptured s); cbn [negb]; [ | now repeat split].
  assert (Es : stopLoop s = s) by (unfold stopLoop; now rewrite Hid).
  rewrite Es, Hid.
  destruct (innerWidth s <? CONFIG.minWidth)%Z; [now repeat split | ].
  pose proof (captureBasePositions_frames s) as Hcf.
  destruct (captureBasePositions_quiet s) as (Hca & Hcw & Hcr).
  destruct (captureBasePositions s) as [s2 | s2]; cbn [bind stateOf] in *;
    [ | unfold calm; repeat split; congruence].
  pose proof (applyPositions_frames s2) as Haf.
  destruct (applyPositions_quiet s2) as (Haa & Haw & Har).
  destruct (applyPositions s2) as [s3 | s3]; cbn [bind stateOf] in *;
    unfold calm; repeat split; congruence.
Qed.

Lemma step_calm_blocked (s : state) (e : event) :
  calm s -> blocked s -> keepsBlocked e ->
  calm (step s e) /\ blocked (step s e).
Proof.
  intros Hc Hb He. destruct e; cbn [step keepsBlocked] in *.
  - rewrite (handleMouseEnter_guarded s Hb). now destruct (listening s).
  - destruct Hc as [Hf Hid]. unfold handleMouseLeave, stopLoop. rewrite Hid.
    destruct (listening s); now repeat split.
  - destruct (listening s); split; assumption.
  - destruct (timerPending s); [ | now split].
    destruct (resizeWork_calm (setTimerPending false s) Hc) as (Hc' & Hw & Hr).
    split; [exact Hc' | ]. unfold blocked. rewrite Hw, Hr. exact Hb.
  - destruct Hc as [Hf Hid]. rewrite (runFrame_idle _ _ Hf). now repeat split.
  - unfold relayout, calm, blocked.
    destruct (grid (setViewport w rm s)); cbn; split; try exact Hc; exact He.
Qed.

(** X8: while the viewport is narrow or reduced motion is requested, an
    idle component stays idle: no hover, resize, timer or frame event ever
    requests an animation frame. *)
Theorem guards_keep_component_idle (s : state) (es : list event) :
  calm s -> blocked s -> Forall keepsBlocked es ->
  calm (run s es) /\ blocked (run s es) /\
  forall n : nat,
    frameCallbacks (run s (firstn n es)) = [] /\
    animationId (run s (firstn n es)) = None.
Proof.
  assert (Hgen : forall (es : list event) (s : state),
            calm s -> blocked s -> Forall keepsBlocked es ->
            calm (run s es) /\ blocked (run s es)).
  { clear. induction es as [| e rest IH]; intros s Hc Hb Hall; [now split | ].
    inversion Hall as [| ? ? He Hrest]; subst.
    destruct (step_calm_blocked s e Hc Hb He) as [Hc' Hb'].
    cbn [run fold_left]. apply IH; assumption. }
  intros Hc Hb Hall.
  destruct (Hgen es s Hc Hb Hall) as [H1 H2].
  split; [exact H1 | ]. split; [exact H2 | ].
  intros n. apply (Hgen (firstn n es) s Hc Hb).
  rewrite <- (firstn_skipn n es) in Hall.
  apply Forall_app in Hall. apply Hall.
Qed.

(** ** Leaked loops *)

Lemma frames_all (timestamp : Q) (cbs : list Z) :
  forall s : state,
  activated s -> length (basePositions s) = 6%nat ->
  lastTimestamp s = Some timestamp ->
  let s' := fold_left (fun st _ => stateOf (animate timestamp st)) cbs s in
  activated s' /\ length (basePositions s') = 6%nat /\
  lastTimestamp s' = Some timestamp /\
  progress s' == progress s /\
  length (frameCallbacks s') = (length (frameCallbacks s) + length cbs)%nat.
Proof.
  induction cbs as [| h rest IH]; intros s Ha H6 Hl.
  - cbn [fold_left length].
    split; [exact Ha | ]. split; [exact H6 | ]. split; [exact Hl | ].
    split; [reflexivity | lia].
  - cbn [fold_left].
    assert (Ht : match lastTimestamp s with
                 | Some l => l <= timestamp
                 | None => True
                 end) by (rewrite Hl; lra).
    destruct (animate_effect timestamp s Ha H6 Ht) as [Hanim _].
    destruct (animate_activated timestamp s Ha H6 Ht)
      as (s1 & Hs1 & Ha1 & H61 & Hl1).
    rewrite Hl in Hanim. rewrite Hanim in Hs1. injection Hs1 as Hs1.
    rewrite Hanim. cbn [stateOf]. rewrite Hs1.
    destruct (IH s1 Ha1 H61 Hl1) as (Ha' & H6' & Hl' & Hp' & Hlen').
    split; [exact Ha' | ]. split; [exact H6' | ]. split; [exact Hl' | ].
    split.
    + rewrite Hp'. rewrite <- Hs1. cbn. field.
    + rewrite Hlen'. rewrite <- Hs1. cbn. rewrite length_app. cbn. lia.
Qed.

(** X18: a frame runs every pending callback and each requests the next
    frame, so the number of pending callbacks never goes down by itself: a
    loop leaked by a second hover-enter lives on.  The callbacks share the
    last timestamp, so progress still advances by the elapsed time once,
    not once per loop. *)
Theorem frame_keeps_every_loop (timestamp : Q) (s : state) :
  activated s -> frameCallbacks s <> [] -> timely s (Frame timestamp) ->
  let last := match lastTimestamp s with Some l => l | None => timestamp end in
  let s' := runFrame timestamp s in
  length (frameCallbacks s') = length (frameCallbacks s) /\
  progress s' == progress s + CONFIG.speed * ((timestamp - last) / 1000) /\
  lastTimestamp s' = Some timestamp /\
  activated s'.
Proof.
  intros Ha Hf Ht last s'.
  assert (H6 : length (basePositions s) = 6%nat)
    by (apply (activated_captured s Ha); now right).
  destruct (frameCallbacks s) as [| h rest] eqn:Ef; [contradiction | ].
  set (s0 := setFrames [] (nextHandle s) s).
  assert (Ha0 : activated s0).
  { destruct Ha as (Hc & Hg & Hp & _). unfold activated, s0. cbn.
    repeat split; try assumption. now left. }
  assert (Ht0 : match lastTimestamp s0 with
                | Some l => l <= timestamp
                | None => True
                end).
  { unfold s0. cbn in *. destruct (lastTimestamp s); exact Ht. }
  destruct (animate_effect timestamp s0 Ha0 H6 Ht0) as [Hanim _].
  destruct (animate_activated timestamp s0 Ha0 H6 Ht0)
    as (s1 & Hs1 & Ha1 & H61 & Hl1).
  rewrite Hanim in Hs1. injection Hs1 as Hs1.
  assert (Es' : s' = fold_left (fun st _ => stateOf (animate timestamp st))
                       rest s1).
  { unfold s', runFrame. rewrite Ef. cbn [fold_left].
    fold s0. rewrite Hanim. cbn [stateOf]. rewrite <- Hs1. reflexivity. }
  destruct (frames_all timestamp rest s1 Ha1 H61 Hl1)
    as (Ha' & _ & Hl' & Hp' & Hlen').
  rewrite <- Es' in Ha', Hl', Hp', Hlen'.
  split.
  { rewrite Hlen'. rewrite <- Hs1. cbn. lia. }
  split.
  { rewrite Hp'. rewrite <- Hs1. cbn. unfold last. reflexivity. }
  split; assumption.
Qed.

(** ** Starting again after a reset *)

Lemma stopLoop_browser (s : state) :
  listening (stopLoop s) = listening s /\
  reducedMotion (stopLoop s) = reducedMotion s /\
  timerPending (stopLoop s) = timerPending s.
Proof. unfold stopLoop. destruct (animationId s); now repeat split. Qed.

(** X19: after the reset on a narrow viewport the animation starts from
    rest.  Once the window is wide again, the next hover-enter measures the
    base positions anew from the layout of that moment, and its first frame
    shows progress 0 and a zero offset on every card. *)
Theorem fresh_start_after_reset (s : state) (w : Z) (g : position)
    (boxes : list position) (timestamp : Q) (i : nat) :
  activated s -> positionsCaptured s = true -> singleLoop s ->
  listening s = true -> (innerWidth s < CONFIG.minWidth)%Z ->
  (CONFIG.minWidth <= w)%Z -> (i < 6)%nat ->
  let s1 := stateOf (resizeWork s) in
  let s2 := relayout w false g boxes s1 in
  let s3 := run s2 [MouseEnter; Frame timestamp] in
  (positionsCaptured s1 = false /\ progress s1 = 0 /\ calm s1) /\
  loopRunning s3 /\ positionsCaptured s3 = true /\ progress s3 == 0 /\
  basePositions s3 = naturalOffsets g (cards s2) /\
  exists c dx dy,
    nth_error (cards s3) i = Some c /\
    cardTransform c = Translate dx dy /\ dx == 0 /\ dy == 0.
Proof.
  intros Ha Hcap Hs Hl Hn Hw Hi s1 s2 s3.
  assert (Hnb : (innerWidth s <? CONFIG.minWidth)%Z = true)
    by now apply Z.ltb_lt.
  destruct (stopLoop_single s Hs) as [Hf0 Hid0].
  destruct (stopLoop_fields s) as (Eg & Ec & Eb & Ep & Epc & Ew & _).
  destruct (stopLoop_browser s) as (El & Er & Et).
  destruct Ha as (Hc6 & Hg & Hp0 & Hb).
  assert (Es1 : s1 = setProgress 0
                       (setPositionsCaptured false
                          (setCards (clearTransforms (cards s)) (stopLoop s)))).
  { unfold s1. now rewrite (resizeWork_narrow s Hcap Hnb). }
  split.
  { rewrite Es1. cbn. repeat split; assumption. }
  destruct (grid s) as [g0 |] eqn:Eg0; [ | congruence].
  set (cs2 := moveCards boxes (clearTransforms (cards s))).
  assert (Hlen2 : length cs2 = 6%nat).
  { unfold cs2, clearTransforms. now rewrite moveCards_length, length_map. }
  assert (F2 : grid s2 = Some g /\ cards s2 = cs2 /\
               positionsCaptured s2 = false /\ progress s2 = 0 /\
               frameCallbacks s2 = [] /\ listening s2 = true /\
               innerWidth s2 = w /\ reducedMotion s2 = false).
  { unfold s2, relayout. rewrite Es1. cbn. rewrite Eg. cbn.
    repeat split; try assumption; try reflexivity. congruence. }
  destruct F2 as (G2 & C2 & P2 & Pr2 & Fc2 & L2 & W2 & R2).
  set (base := naturalOffsets g (cards s2)).
  set (s2c := setPositionsCaptured true (setBasePositions base s2)).
  set (s2' := scheduleAnimate (setLastTimestamp None s2c)).
  assert (Henter : handleMouseEnter s2 = Done s2').
  { unfold handleMouseEnter, prefersReducedMotion.
    rewrite W2, R2, P2. apply Z.ltb_ge in Hw. rewrite Hw.
    rewrite (capture_done s2 g G2). reflexivity. }
  assert (Es3 : s3 = runFrame timestamp s2').
  { unfold s3. cbn [run fold_left step]. now rewrite L2, Henter. }
  assert (H6b : length base = 6%nat)
    by (unfold base; now rewrite naturalOffsets_length, C2).
  assert (Ha2' : activated s2').
  { apply scheduleAnimate_activated; [ | exact H6b].
    unfold activated, s2c.
    cbn [cards grid progress basePositions setLastTimestamp
         setPositionsCaptured setBasePositions].
    rewrite C2, G2, Pr2.
    split; [exact Hlen2 | ]. split; [discriminate | ].
    split; [lra | now left]. }
  assert (Hrun2' : loopRunning s2').
  { apply scheduleAnimate_running. exact Fc2. }
  destruct (runFrame_running timestamp s2' Ha2' Hrun2' I)
    as (_ & Hrun3 & Hp3 & _ & _ & Hb3 & Hcs3 & Hpc3 & _).
  rewrite <- Es3 in Hrun3, Hp3, Hb3, Hcs3, Hpc3.
  change (lastTimestamp s2') with (@None Q) in Hp3, Hcs3.
  change (progress s2') with (progress s2) in Hp3, Hcs3.
  change (basePositions s2') with base in Hb3, Hcs3.
  change (cards s2') with (cards s2) in Hcs3.
  change (positionsCaptured s2') with true in Hpc3.
  rewrite Pr2 in Hp3, Hcs3. rewrite C2 in Hcs3.
  set (p' := 0 + CONFIG.speed * ((timestamp - timestamp) / 1000)) in *.
  assert (Ep0 : p' == 0) by (unfold p'; field).
  split; [exact Hrun3 | ]. split; [exact Hpc3 | ].
  split; [rewrite Hp3; exact Ep0 | ].
  split; [exact Hb3 | ].
  set (sv := setBasePositions base (setCards cs2 s)).
  assert (Hcv : length (cards sv) = 6%nat) by exact Hlen2.
  assert (Hbv : length (basePositions sv) = 6%nat) by exact H6b.
  assert (H00 : 0 <= 0) by lra.
  assert (H01 : 0 < 1) by lra.
  assert (Hn0 : (0 <= 0)%Z) by lia.
  assert (Hpe : p' == inject_Z 0 + 0) by (rewrite Ep0; reflexivity).
  destruct (renderedAt_segment sv i 0 0 p' Hcv Hbv Hi Hn0 H00 H01 Hpe)
    as (dx & dy & Hr & Hdx & Hdy).
  cbv zeta in Hdx, Hdy.
  rewrite Z.add_0_r in Hdx, Hdy.
  assert (Hz : (0 <= Z.of_nat i < 6)%Z) by lia.
  destruct (ring_indexOf _ Hz) as [_ Hsi]. rewrite Hsi in Hdx, Hdy.
  unfold renderedAt in Hr.
  rewrite applyPositions_done in Hr; cbn; try assumption; [ | rewrite Ep0; lra].
  cbn [stateOf cards setCards setProgress basePositions progress
       setBasePositions sv] in Hr.
  unfold sv in Hr.
  cbn [cards setCards setProgress basePositions progress setBasePositions] in Hr.
  rewrite <- Hcs3 in Hr.
  destruct (nth_error (cards s3) i) as [c |] eqn:Hnth; [ | discriminate].
  cbn [option_map] in Hr. injection Hr as Htr.
  exists c, dx, dy. split; [exact Hnth | ]. split; [exact Htr | ].
  split; [rewrite Hdx | rewrite Hdy]; unfold lerp; ring.
Qed.

(** * The other scripts of the page *)

(** ** Strings *)

Lemma startsWith_app (needle v : JSString.t) :
  JSString.startsWith (needle ++ v) needle = true.
Proof.
  induction needle as [| c r IH]; [destruct v; reflexivity | ].
  cbn [app JSString.startsWith]. now rewrite N.eqb_refl, IH.
Qed.

Lemma includes_app (u needle v : JSString.t) :
  JSString.includes (u ++ needle ++ v) needle = true.
Proof.
  induction u as [| c r IH].
  - cbn [app]. destruct (needle ++ v) eqn:E; cbn [JSString.includes];
      rewrite <- E, startsWith_app; reflexivity.
  - cbn [app JSString.includes]. rewrite IH. apply orb_true_r.
Qed.

Lemma trimStart_app (a y : JSString.t) (c : N) :
  JSString.isWhiteSpace c = false ->
  JSString.trimStart (a ++ c :: y) = JSString.trimStart a ++ c :: y.
Proof.
  intros Hc. induction a as [| x r IH].
  - cbn [app JSString.trimStart]. now rewrite Hc.
  - cbn [app JSString.trimStart]. destruct (JSString.isWhiteSpace x);
      [exact IH | reflexivity].
Qed.

Lemma trimEnd_app (z y : JSString.t) (c : N) :
  JSString.isWhiteSpace c = false ->
  JSString.trimEnd (z ++ y ++ [c]) = z ++ y ++ [c].
Proof.
  intros Hc. unfold JSString.trimEnd.
  rewrite !app_assoc. rewrite (rev_app_distr (z ++ y) [c]).
  cbn [rev app JSString.trimStart]. rewrite Hc.
  cbn [rev]. now rewrite rev_involutive.
Qed.

(** What [trim] leaves of [rel + ' noopener noreferrer']. *)
Lemma trim_rel (rel : JSString.t) :
  JSString.trim (rel ++ Lit.space_noopener_noreferrer) =
  JSString.trimStart (rel ++ [32%N]) ++ Lit.noopener_noreferrer.
Proof.
  unfold JSString.trim.
  change Lit.space_noopener_noreferrer with ([32%N] ++ Lit.noopener_noreferrer).
  rewrite app_assoc.
  set (mid := removelast (tl Lit.noopener_noreferrer)).
  change Lit.noopener_noreferrer with (110%N :: mid ++ [114%N]).
  rewrite trimStart_app by reflexivity.
  apply (trimEnd_app _ (110%N :: mid) 114%N).
  reflexivity.
Qed.

Lemma trimStart_space (a : JSString.t) :
  JSString.trimStart (a ++ [32%N]) =
  match JSString.trimStart a with
  | [] => []
  | w => w ++ [32%N]
  end.
Proof.
  induction a as [| x r IH]; [reflexivity | ].
  cbn [app JSString.trimStart].
  destruct (JSString.isWhiteSpace x); [exact IH | reflexivity].
Qed.

(** ** External links *)

Lemma secureLink_has_noopener (l : Portfolio.link) :
  exists r, Portfolio.secureLink l = Some r /\
            JSString.truthy r = true /\
            JSString.includes r Lit.noopener = true.
Proof.
  unfold Portfolio.secureLink.
  destruct (JSString.includes (Portfolio.relOrEmpty l) Lit.noopener) eqn:E;
    cbn [negb].
  - destruct l as [r |]; [ | discriminate E].
    unfold Portfolio.relOrEmpty in E.
    destruct r as [| c r]; [discriminate E | ].
    exists (c :: r). now repeat split.
  - eexists. split; [reflexivity | ].
    rewrite trim_rel. split.
    + destruct (JSString.trimStart _); reflexivity.
    + change Lit.noopener_noreferrer
        with (Lit.noopener ++ skipn 8 Lit.noopener_noreferrer).
      apply includes_app.
Qed.

Lemma relOrEmpty_truthy (r : JSString.t) :
  JSString.truthy r = true -> Portfolio.relOrEmpty (Some r) = r.
Proof. intros H. unfold Portfolio.relOrEmpty. now rewrite H. Qed.

(** X9: after [initExternalLinks] every selected link carries a [rel]
    attribute that contains [noopener]; links whose [rel] already contained
    it are left exactly as they were; and a second run changes nothing. *)
Theorem external_links_secured (links : list Portfolio.link) :
  let after := Portfolio.initExternalLinks links in
  length after = length links /\
  Forall (fun l => exists r, l = Some r /\
                             JSString.includes r Lit.noopener = true) after /\
  (forall l, JSString.includes (Portfolio.relOrEmpty l) Lit.noopener = true ->
             Portfolio.secureLink l = l) /\
  Portfolio.initExternalLinks after = after.
Proof.
  intros after. unfold after, Portfolio.initExternalLinks.
  split; [apply length_map | ].
  split.
  { apply Forall_forall. intros l Hin. apply in_map_iff in Hin.
    destruct Hin as (l0 & <- & _).
    destruct (secureLink_has_noopener l0) as (r & Hr & _ & Hinc).
    exists r. now split. }
  assert (Hkeep : forall l,
            JSString.includes (Portfolio.relOrEmpty l) Lit.noopener = true ->
            Portfolio.secureLink l = l).
  { intros l H. unfold Portfolio.secureLink. now rewrite H. }
  split; [exact Hkeep | ].
  rewrite map_map. apply map_ext. intros l.
  destruct (secureLink_has_noopener l) as (r & Hr & Ht & Hinc).
  rewrite Hr. apply Hkeep. now rewrite relOrEmpty_truthy.
Qed.

(** X10: the value written on a link without [noopener].  A [rel] that is
    absent, empty or white space only becomes exactly
    ["noopener noreferrer"]; any other keeps its text, leading white space
    dropped, followed by [" noopener noreferrer"]. *)
Theorem external_link_rel_value (l : Portfolio.link) :
  JSString.includes (Portfolio.relOrEmpty l) Lit.noopener = false ->
  let rel := Portfolio.relOrEmpty l in
  (JSString.trimStart rel = [] ->
   Portfolio.secureLink l = Some Lit.noopener_noreferrer) /\
  (JSString.trimStart rel <> [] ->
   Portfolio.secureLink l =
     Some (JSString.trimStart rel ++ Lit.space_noopener_noreferrer)).
Proof.
  intros Hinc rel. unfold Portfolio.secureLink. fold rel.
  unfold rel in Hinc. fold rel in Hinc. rewrite Hinc. cbn [negb].
  rewrite trim_rel, trimStart_space.
  split; intros H.
  - now rewrite H.
  - destruct (JSString.trimStart rel) as [| c w]; [contradiction | ].
    rewrite <- app_assoc. reflexivity.
Qed.

Lemma external_link_rel_value_witness :
  JSString.includes (Portfolio.relOrEmpty None) Lit.noopener = false /\
  Portfolio.secureLink None = Some Lit.noopener_noreferrer.
Proof.
  split; [reflexivity | ].
  apply (external_link_rel_value None); reflexivity.
Defined.

(** ** Language detection *)







(** ** Nested lookup *)

Lemma split_nonempty (sep : N) (s : JSString.t) : JSString.split sep s <> [].
Proof.
  destruct s as [| c rest]; cbn [JSString.split]; [discriminate | ].
  destruct (c =? sep)%N; [discriminate | ].
  destruct (JSString.split sep rest); discriminate.
Qed.

Lemma split_app (sep : N) (p q : JSString.t) :
  JSString.split sep (p ++ sep :: q) =
  JSString.split sep p ++ JSString.split sep q.
Proof.
  induction p as [| c rest IH].
  - cbn [app JSString.split]. now rewrite N.eqb_refl.
  - cbn [app JSString.split]. destruct (c =? sep)%N.
    + now rewrite IH.
    + rewrite IH.
      destruct (JSString.split sep rest) as [| h tl] eqn:E;
        [now apply split_nonempty in E | reflexivity].
Qed.

Lemma split_plain (sep : N) (s : JSString.t) :
  ~ In sep s -> JSString.split sep s = [s].
Proof.
  induction s as [| c rest IH]; intros Hnot; [reflexivity | ].
  cbn [JSString.split].
  destruct (c =? sep)%N eqn:E.
  - apply N.eqb_eq in E. exfalso. apply Hnot. now left.
  - rewrite IH; [reflexivity | ]. intros Hin. apply Hnot. now right.
Qed.

(** X13: nested lookup composes along the dots of a path: looking up
    [p.q] is looking up [q] in what [p] yields.  A key without a dot is one
    property read, guarded by truthiness; and once a step yields
    [undefined] (a missing key, or a falsy value on the way) so does every
    longer path, and [t] answers with the fallback. *)
Theorem getNestedValue_composes {value : Type} (truthy : value -> bool)
    (get : value -> JSString.t -> option value)
    (obj : option value) (p q : JSString.t) (fallback : value) :
  I18n.getNestedValue truthy get obj (p ++ 46%N :: q) =
    I18n.getNestedValue truthy get (I18n.getNestedValue truthy get obj p) q /\
  I18n.getNestedValue truthy get None q = None /\
  (~ In 46%N q ->
   forall v, I18n.getNestedValue truthy get (Some v) q =
             if truthy v then get v q else None) /\
  (forall v, I18n.getNestedValue truthy get (Some v) p = None ->
             I18n.t truthy get v (p ++ 46%N :: q) fallback = fallback).
Proof.
  assert (Hnone : forall keys : list JSString.t,
            fold_left
              (fun (current : option value) (key : JSString.t) =>
                 match current with
                 | Some v => if truthy v then get v key else None
                 | None => None
                 end) keys None = None).
  { induction keys as [| k r IH]; [reflexivity | exact IH]. }
  assert (Hcomp : I18n.getNestedValue truthy get obj (p ++ 46%N :: q) =
                  I18n.getNestedValue truthy get
                    (I18n.getNestedValue truthy get obj p) q).
  { unfold I18n.getNestedValue. now rewrite split_app, fold_left_app. }
  split; [exact Hcomp | ].
  split; [apply Hnone | ].
  split.
  - intros Hq v. unfold I18n.getNestedValue. now rewrite (split_plain _ _ Hq).
  - intros v Hv. unfold I18n.t.
    assert (E : I18n.getNestedValue truthy get (Some v) (p ++ 46%N :: q) = None).
    { unfold I18n.getNestedValue in *.
      rewrite split_app, fold_left_app, Hv. apply Hnone. }
    now rewrite E.
Qed.

(** ** The process section *)

(** X14: the highlighted step depends on the last call only.
    [setActiveStep] removes both marker classes before it adds one, so a
    call after another gives what the call alone gives, no marker is ever
    both active and completed, and the step selected by
    [initProcessSection] leaves no trace once another is chosen. *)
Theorem setActiveStep_last_wins (m n : option Z) (p : Portfolio.section) :
  Portfolio.setActiveStep m (Portfolio.setActiveStep n p) =
    Portfolio.setActiveStep m p /\
  Forall (fun k => (Portfolio.markerActive k && Portfolio.markerCompleted k)%bool
                   = false)
         (Portfolio.markers (Portfolio.setActiveStep n p)) /\
  (forall hasFill : bool,
     Portfolio.setActiveStep m (fst (Portfolio.initProcessSection p hasFill)) =
     Portfolio.setActiveStep m p).
Proof.
  assert (Hlast : forall a b q,
            Portfolio.setActiveStep a (Portfolio.setActiveStep b q) =
            Portfolio.setActiveStep a q).
  { intros a b q. unfold Portfolio.setActiveStep.
    cbn [Portfolio.steps Portfolio.markers]. rewrite length_map, !map_map.
    f_equal.
    apply map_ext. intros k. cbn [Portfolio.markerStep].
    destruct (Portfolio.numEq (Portfolio.markerStep k) b);
      [reflexivity | ].
    destruct (Portfolio.numLt (Portfolio.markerStep k) b); reflexivity. }
  split; [apply Hlast | ]. split.
  - cbn [Portfolio.setActiveStep Portfolio.markers]. apply Forall_forall.
    intros k Hin. apply in_map_iff in Hin. destruct Hin as (k0 & <- & _).
    destruct (Portfolio.numEq (Portfolio.markerStep k0) n); [reflexivity | ].
    destruct (Portfolio.numLt (Portfolio.markerStep k0) n); reflexivity.
  - intros hasFill. unfold Portfolio.initProcessSection.
    destruct (Nat.eqb (length (Portfolio.steps p)) 0
              || Nat.eqb (length (Portfolio.markers p)) 0
              || negb hasFill)%bool; cbn [fst]; [reflexivity | apply Hlast].
Qed.

(** X15: the width of the progress bar.  With at least two steps and a
    step number between 1 and their count, the percentage lies between 0
    and 100, is 0 for the first step and 100 for the last, and grows with
    the step; with a single step the quotient is no finite number. *)
Theorem progress_percentage_range (n : Z) (total : nat) (p : Portfolio.section) :
  (2 <= total)%nat -> (1 <= n <= Z.of_nat total)%Z ->
  length (Portfolio.steps p) = total ->
  exists q,
    Portfolio.fillWidth (Portfolio.setActiveStep (Some n) p) = Some q /\
    0 <= q /\ q <= 100 /\
    (n = 1%Z -> q == 0) /\ (n = Z.of_nat total -> q == 100) /\
    (forall m q', (n < m)%Z ->
       Portfolio.progressPercentage (Some m) total = Some q' -> q < q') /\
    Portfolio.progressPercentage (Some n) 1 = None.
Proof.
  intros Ht Hn Hlen.
  cbn [Portfolio.setActiveStep Portfolio.fillWidth]. rewrite Hlen.
  unfold Portfolio.progressPercentage.
  destruct (Z.of_nat total - 1 =? 0)%Z eqn:E; [apply Z.eqb_eq in E; lia | ].
  set (d := inject_Z (Z.of_nat total - 1)).
  assert (Hd : 0 < d) by (apply inject_Z_pos; lia).
  eexists. split; [reflexivity | ].
  assert (Hfrac : forall k : Z,
            inject_Z (k - 1) / d * 100 == (100 / d) * inject_Z (k - 1))
    by (intros k; field; lra).
  assert (Hc : 0 < 100 / d) by (apply Qlt_shift_div_l; lra).
  assert (Hlo : 0 <= inject_Z (n - 1)) by (apply inject_Z_nonneg; lia).
  assert (Hhi : inject_Z (n - 1) <= d).
  { unfold d. rewrite <- Zle_Qle. lia. }
  split.
  { rewrite Hfrac. apply Qmult_le_0_compat; lra. }
  split.
  { rewrite Hfrac.
    assert (E100 : 100 == (100 / d) * d) by (field; lra).
    rewrite E100 at 2. apply Qmult_le_l; assumption. }
  split.
  { intros ->. rewrite Hfrac. change (inject_Z (1 - 1)) with 0. ring. }
  split.
  { intros ->. fold d. field. lra. }
  split; [ | reflexivity].
  intros m q' Hm Hq'. injection Hq' as <-.
  rewrite !Hfrac. apply Qmult_lt_l; [exact Hc | ].
  rewrite <- Zlt_Qlt. lia.
Qed.

Lemma progress_percentage_range_witness :
  exists q,
    Portfolio.fillWidth
      (Portfolio.setActiveStep (Some 2%Z)
         (Portfolio.mkSection
            [Portfolio.mkStepCard (Some 1%Z) false;
             Portfolio.mkStepCard (Some 2%Z) false;
             Portfolio.mkStepCard (Some 3%Z) false] [] None)) = Some q /\
    0 <= q /\ q <= 100.
Proof.
  destruct (progress_percentage_range 2 3
              (Portfolio.mkSection
                 [Portfolio.mkStepCard (Some 1%Z) false;
                  Portfolio.mkStepCard (Some 2%Z) false;
                  Portfolio.mkStepCard (Some 3%Z) false] [] None))
    as (q & Hq & H0 & H1 & _); [lia | lia | reflexivity | ].
  exists q. repeat split; assumption.
Defined.

(** ** The circular carousel *)

Module WheelFacts.
Import Reals Lra.
Local Open Scope R_scope.

Lemma six_steps : 6 * FerrisWheel.step = 2 * PI.
Proof. unfold FerrisWheel.step, FerrisWheel.cardCount. field. Qed.

Lemma three_steps : 3 * FerrisWheel.step = PI.
Proof. unfold FerrisWheel.step, FerrisWheel.cardCount. field. Qed.

Lemma on_circle (angle : R) (i : nat) :
  FerrisWheel.cardX angle i * FerrisWheel.cardX angle i +
  FerrisWheel.cardY angle i * FerrisWheel.cardY angle i =
  FerrisWheel.radius * FerrisWheel.radius.
Proof.
  unfold FerrisWheel.cardX, FerrisWheel.cardY.
  set (u := FerrisWheel.cardAngle angle i - PI / 2).
  pose proof (sin2_cos2 u) as H. unfold Rsqr in H.
  replace (FerrisWheel.radius * cos u * (FerrisWheel.radius * cos u) +
           FerrisWheel.radius * sin u * (FerrisWheel.radius * sin u))
    with (FerrisWheel.radius * FerrisWheel.radius *
          (sin u * sin u + cos u * cos u)) by ring.
  rewrite H. ring.
Qed.

Lemma positionFrom_on_circle (angle : R) (cards : list FerrisWheel.transform) :
  forall i : nat,
  Forall (fun t => exists x y, t = FerrisWheel.FromCentre x y /\
                               x * x + y * y =
                               FerrisWheel.radius * FerrisWheel.radius)
         (FerrisWheel.positionFrom angle i cards) /\
  length (FerrisWheel.positionFrom angle i cards) = length cards.
Proof.
  induction cards as [| c rest IH]; intros i; cbn [FerrisWheel.positionFrom].
  - split; [constructor | reflexivity].
  - destruct (IH (S i)) as [H1 H2]. split.
    + constructor; [ | exact H1].
      eexists _, _. split; [reflexivity | apply on_circle].
    + cbn [length]. now rewrite H2.
Qed.

(** X16: [positionCards] puts every card on the circle of radius 320
    around the centre, whatever the angle and however many cards there
    are; at angle 0 the first card is straight above the centre. *)
Theorem cards_on_the_circle (angle : R) (cards : list FerrisWheel.transform) :
  Forall (fun t => exists x y, t = FerrisWheel.FromCentre x y /\
                               x * x + y * y = 320 * 320)
         (FerrisWheel.positionCards angle cards) /\
  length (FerrisWheel.positionCards angle cards) = length cards /\
  FerrisWheel.cardX 0 0 = 0 /\ FerrisWheel.cardY 0 0 = - 320.
Proof.
  split; [apply (positionFrom_on_circle angle cards 0%nat) | ].
  split; [apply (positionFrom_on_circle angle cards 0%nat) | ].
  unfold FerrisWheel.cardX, FerrisWheel.cardY, FerrisWheel.cardAngle,
    FerrisWheel.radius.
  cbn [INR].
  replace (0 + 0 * FerrisWheel.step - PI / 2) with (- (PI / 2)) by ring.
  rewrite cos_neg, sin_neg, cos_PI2, sin_PI2. split; ring.
Qed.

(** X17: the six places are one step apart and the wheel closes.  Turning
    by one step moves every card to the place of the next, six steps or a
    turn of [2 * PI] bring every card back, and the card three places on
    is diametrically opposite. *)
Theorem wheel_is_regular (angle : R) (i : nat) :
  (FerrisWheel.cardX (angle + FerrisWheel.step) i =
     FerrisWheel.cardX angle (S i) /\
   FerrisWheel.cardY (angle + FerrisWheel.step) i =
     FerrisWheel.cardY angle (S i)) /\
  (FerrisWheel.cardX angle (i + 6) = FerrisWheel.cardX angle i /\
   FerrisWheel.cardY angle (i + 6) = FerrisWheel.cardY angle i) /\
  (FerrisWheel.cardX (angle + 2 * PI) i = FerrisWheel.cardX angle i /\
   FerrisWheel.cardY (angle + 2 * PI) i = FerrisWheel.cardY angle i) /\
  (FerrisWheel.cardX angle (i + 3) = - FerrisWheel.cardX angle i /\
   FerrisWheel.cardY angle (i + 3) = - FerrisWheel.cardY angle i).
Proof.
  unfold FerrisWheel.cardX, FerrisWheel.cardY, FerrisWheel.cardAngle.
  pose proof six_steps as H6. pose proof three_steps as H3.
  set (u := angle + INR i * FerrisWheel.step - PI / 2).
  split; [ | split; [ | split]].
  - rewrite S_INR.
    replace (angle + FerrisWheel.step + INR i * FerrisWheel.step - PI / 2)
      with (angle + (INR i + 1) * FerrisWheel.step - PI / 2) by ring.
    split; reflexivity.
  - rewrite plus_INR. change (INR 6) with (INR 5 + 1). cbn [INR].
    replace (angle + (INR i + (1 + 1 + 1 + 1 + 1 + 1)) * FerrisWheel.step - PI / 2)
      with (u + 2 * PI) by (unfold u; lra).
    rewrite cos_plus, sin_plus, cos_2PI, sin_2PI. split; ring.
  - replace (angle + 2 * PI + INR i * FerrisWheel.step - PI / 2)
      with (u + 2 * PI) by (unfold u; ring).
    rewrite cos_plus, sin_plus, cos_2PI, sin_2PI. split; ring.
  - rewrite plus_INR. cbn [INR].
    replace (angle + (INR i + (1 + 1 + 1)) * FerrisWheel.step - PI / 2)
      with (u + PI) by (unfold u; lra).
    rewrite neg_cos, neg_sin. split; ring.
Qed.

End WheelFacts.

(** ** Worked instances of the further properties *)

Lemma demoRunning_activated : activated demoRunning.
Proof.
  unfold activated. split; [reflexivity | ].
  split; [vm_compute; discriminate | ].
  split; [vm_compute; discriminate | left; reflexivity].
Qed.

Lemma demoHovered_activated : activated demoHovered.
Proof.
  unfold activated. split; [reflexivity | ].
  split; [vm_compute; discriminate | ].
  split; [vm_compute; discriminate | left; reflexivity].
Qed.

Lemma integer_progress_rests_on_slot_witness :
  length (cards demoRunning) = 6%nat /\
  exists dx dy, renderedAt demoRunning (inject_Z 2) 0 = Some (Translate dx dy).
Proof.
  split; [reflexivity | ].
  destruct (integer_progress_rests_on_slot demoRunning 0 2)
    as (dx & dy & Hr & _); [reflexivity | reflexivity | lia | lia | ].
  exists dx, dy. exact Hr.
Defined.

Lemma full_cycle_same_offsets_witness :
  length (basePositions demoRunning) = 6%nat /\
  exists dx dy ex ey,
    renderedAt demoRunning (9 # 4) 1 = Some (Translate dx dy) /\
    renderedAt demoRunning ((9 # 4) + 6) 1 = Some (Translate ex ey) /\
    ex == dx /\ ey == dy.
Proof.
  split; [reflexivity | ].
  apply (full_cycle_same_offsets demoRunning 1 (9 # 4)).
  - reflexivity.
  - reflexivity.
  - lia.
  - discriminate.
Defined.

Lemma target_between_slots_witness :
  length (cards demoRunning) = 6%nat /\
  exists dx dy, renderedAt demoRunning (9 # 4) 2 = Some (Translate dx dy).
Proof.
  split; [reflexivity | ].
  destruct (target_between_slots demoRunning 2 (9 # 4))
    as (dx & dy & Hr & _); [reflexivity | reflexivity | lia | discriminate | ].
  exists dx, dy. exact Hr.
Defined.

Lemma resize_draws_cards_at_targets_witness :
  positionsCaptured demoRunning = true /\
  exists s', resizeWork demoRunning = Done s' /\
             progress s' = progress demoRunning.
Proof.
  split; [reflexivity | ].
  assert (Hc : nth_error (cards demoRunning) 0 =
               Some (nth 0 (cards demoRunning) (mkCard (mkPosition 0 0) NoTransform)))
    by (vm_compute; reflexivity).
  destruct (resize_draws_cards_at_targets demoRunning (mkPosition 40 60) 0
              (nth 0 (cards demoRunning) (mkCard (mkPosition 0 0) NoTransform))
              demoRunning_activated eq_refl)
    as (s' & c' & Hd & Hp & _).
  - vm_compute. discriminate.
  - reflexivity.
  - exact Hc.
  - exists s'. split; assumption.
Defined.

Lemma frames_advance_by_elapsed_time_witness :
  loopRunning demoHovered /\ lastTimestamp demoHovered = None /\
  ascending 0 [1000; 2500] /\
  progress (run demoHovered (map Frame [0; 1000; 2500])) ==
    progress demoHovered + CONFIG.speed * ((2500 - 0) / 1000).
Proof.
  assert (Hrun : loopRunning demoHovered).
  { exists 1%Z. split; reflexivity. }
  assert (Hasc : ascending 0 [1000; 2500]).
  { cbn. repeat split; discriminate. }
  split; [exact Hrun | ]. split; [reflexivity | ]. split; [exact Hasc | ].
  apply (frames_advance_by_elapsed_time demoHovered 0 [1000; 2500]).
  - exact demoHovered_activated.
  - exact Hrun.
  - reflexivity.
  - exact Hasc.
Defined.

Lemma resume_from_frozen_progress_witness :
  singleLoop demoRunning /\ listening demoRunning = true /\
  progress (run demoRunning [MouseLeave; MouseEnter; Frame 86400000]) ==
    progress demoRunning.
Proof.
  assert (Hs : singleLoop demoRunning).
  { right. exists 3%Z. split; reflexivity. }
  split; [exact Hs | ]. split; [reflexivity | ].
  apply (resume_from_frozen_progress demoRunning 86400000 0).
  - exact demoRunning_activated.
  - exact Hs.
  - reflexivity.
  - reflexivity.
  - vm_compute. discriminate.
  - reflexivity.
  - lia.
Defined.

Lemma wide_resize_keeps_loop_witness :
  singleLoop demoRunning /\
  exists s', resizeWork demoRunning = Done s' /\
             progress s' = progress demoRunning /\
             positionsCaptured s' = true.
Proof.
  assert (Hs : singleLoop demoRunning).
  { right. exists 3%Z. split; reflexivity. }
  split; [exact Hs | ].
  destruct (wide_resize_keeps_loop demoRunning (mkPosition 40 60))
    as (s' & Hd & Hp & Hc & _).
  - exact demoRunning_activated.
  - reflexivity.
  - vm_compute. discriminate.
  - reflexivity.
  - exact Hs.
  - exists s'. repeat split; assumption.
Defined.

Lemma guards_keep_component_idle_witness :
  calm demoIdleNarrow /\ blocked demoIdleNarrow /\
  calm (run demoIdleNarrow
          [MouseEnter; Frame 0; Resize; ResizeTimeout; MouseLeave; MouseEnter]).
Proof.
  assert (Hc : calm demoIdleNarrow) by (split; reflexivity).
  assert (Hb : blocked demoIdleNarrow) by (left; reflexivity).
  split; [exact Hc | ]. split; [exact Hb | ].
  apply (guards_keep_component_idle demoIdleNarrow
           [MouseEnter; Frame 0; Resize; ResizeTimeout; MouseLeave; MouseEnter]).
  - exact Hc.
  - exact Hb.
  - repeat constructor.
Defined.

Lemma demoLeaked_activated : activated demoLeaked.
Proof.
  unfold activated. split; [reflexivity | ].
  split; [vm_compute; discriminate | ].
  split; [vm_compute; discriminate | left; reflexivity].
Qed.

Lemma demoNarrow_activated : activated demoNarrow.
Proof.
  unfold activated. split; [reflexivity | ].
  split; [vm_compute; discriminate | ].
  split; [vm_compute; discriminate | left; reflexivity].
Qed.

Lemma frame_keeps_every_loop_witness :
  length (frameCallbacks demoLeaked) = 2%nat /\
  length (frameCallbacks (runFrame 0 demoLeaked)) =
    length (frameCallbacks demoLeaked).
Proof.
  split; [reflexivity | ].
  apply (frame_keeps_every_loop 0 demoLeaked).
  - exact demoLeaked_activated.
  - vm_compute. discriminate.
  - exact I.
Defined.

Lemma fresh_start_after_reset_witness :
  positionsCaptured demoNarrow = true /\ singleLoop demoNarrow /\
  progress
    (run (relayout 1024 false (mkPosition 40 60) (map natural demoCards)
            (stateOf (resizeWork demoNarrow)))
         [MouseEnter; Frame 5000]) == 0.
Proof.
  assert (Hs : singleLoop demoNarrow).
  { right. exists 3%Z. split; reflexivity. }
  split; [reflexivity | ]. split; [exact Hs | ].
  apply (fresh_start_after_reset demoNarrow 1024 (mkPosition 40 60)
           (map natural demoCards) 5000 0).
  - exact demoNarrow_activated.
  - reflexivity.
  - exact Hs.
  - reflexivity.
  - reflexivity.
  - vm_compute. discriminate.
  - lia.
Defined.
